(** * NdCat: unimodular "cat" matrices, their extension algorithms and the
      induced cat map

    A shallow embedding of [ndcat/extension/block.py],
    [ndcat/extension/laplace.py], [ndcat/generator.py], [ndcat/matrix.py]
    and [ndcat/map.py].

    - Python integers are [Z]; the items of a [numpy.int64] array are [Z]
      values kept in the signed 64-bit range, and arithmetic on them wraps
      ([wrap64]).
    - A 2-D [numpy] array is a list of rows together with its number of
      columns ([ndarray]), so that arrays without rows keep their shape.
    - Python exceptions are the constructors of [error]; a fallible function
      returns a [result].
    - [sympy]'s exact determinant is [det_rows], the Laplace expansion along
      the first row. *)

From HB Require Import structures.
From Stdlib Require Import ZArith Lia String.
From mathcomp Require Import ssreflect ssrfun ssrbool eqtype ssrnat seq div.
From mathcomp Require Import choice fintype finfun bigop tuple fingroup perm.
From mathcomp Require Import ssralg matrix.

Set Implicit Arguments.
Unset Strict Implicit.
Unset Printing Implicit Defensive.

Delimit Scope Z_scope with Z.

(** ** [Z] as a commutative ring of MathComp

    The determinant theory of [matrix.v] is used over [Z] itself. *)

Definition Z_code (z : Z) : bool * nat := (Z.ltb z 0, Z.abs_nat z).

Definition Z_decode (p : bool * nat) : Z :=
  if p.1 then Z.opp (Z.of_nat p.2) else Z.of_nat p.2.

Lemma Z_codeK : cancel Z_code Z_decode.
Proof.
move=> z; rewrite /Z_code /Z_decode /=.
by case: Z.ltb_spec => H; rewrite Zabs2Nat.id_abs; lia.
Qed.

HB.instance Definition _ := Countable.copy Z (can_type Z_codeK).

HB.instance Definition _ :=
  GRing.isZmodule.Build Z Z.add_assoc Z.add_comm Z.add_0_l Z.add_opp_diag_l.

HB.instance Definition _ :=
  GRing.Zmodule_isComNzRing.Build Z
    Z.mul_assoc Z.mul_comm Z.mul_1_l
    (fun x y z => Z.mul_add_distr_r x y z) (isT : 1%Z != 0%Z).

(** ** Python values and exceptions *)

(** The values that reach a [dim] or [algorithm] parameter. *)
Inductive pyval :=
| PyInt (z : Z)
| PyStr (s : string).

(** The exceptions of the package.  The first four are the [ValueError]s the
    package raises itself, told apart by their message; the others are raised
    by Python, [numpy] or [sympy]. *)
Inductive error :=
| InvalidDimension                      (* "Dimension must be greater than 1" *)
| SizeMismatch (required actual : Z)    (* "Input data does not match required size. ..." *)
| InvalidMatrix                         (* "Input matrix is not a cat matrix" *)
| UnknownAlgorithm (name : pyval)       (* "Invalid algorithm {algorithm}" *)
| OverflowError                         (* a Python int that does not fit int64 *)
| IndexError                            (* index out of range *)
| UnpackError                           (* p, q = ... with a wrong item count *)
| ShapeError                            (* reshape / concatenate mismatch *)
| NonSquareMatrixError                  (* sympy cofactor of a non-square matrix *)
| TypeError.                            (* wrong kind of argument *)

Inductive result (A : Type) :=
| Ok (a : A)
| Err (e : error).

Arguments Ok {A} a.
Arguments Err {A} e.

Definition bind {A B : Type} (r : result A) (k : A -> result B) : result B :=
  match r with
  | Ok a => k a
  | Err e => Err e
  end.

Notation "x <- r ;; k" := (bind r (fun x => k))
  (at level 61, r at next level, right associativity).
Notation "' p <- r ;; k" := (bind r (fun x => let p := x in k))
  (at level 61, p pattern, r at next level, right associativity).

Definition is_ok {A : Type} (r : result A) : bool :=
  if r is Ok _ then true else false.

(** [s[i]] on a sequence. *)
Definition getitem {A : Type} (s : seq A) (i : nat) : result A :=
  if nth None [seq Some x | x <- s] i is Some x then Ok x else Err IndexError.

(** ** numpy.int64 *)

Definition int64_min : Z := (- 2 ^ 63)%Z.
Definition int64_max : Z := (2 ^ 63 - 1)%Z.

Definition in_int64 (z : Z) : bool :=
  (int64_min <=? z)%Z && (z <=? int64_max)%Z.

(** Two's-complement wrap-around of a 64-bit signed operation. *)
Definition wrap64 (z : Z) : Z := ((z + 2 ^ 63) mod 2 ^ 64 - 2 ^ 63)%Z.

Definition mul64 (a b : Z) : Z := wrap64 (a * b).
Definition add64 (a b : Z) : Z := wrap64 (a + b).

(** [numpy.asarray(s, dtype=numpy.int64)] on a flat sequence. *)
Definition asarray (s : seq Z) : result (seq Z) :=
  if all in_int64 s then Ok s else Err OverflowError.

(** ** Two-dimensional arrays *)

Record ndarray := NdArray { ncols : nat; rows : seq (seq Z) }.

Definition nrows (a : ndarray) : nat := size (rows a).

(** Every row has [ncols a] items. *)
Definition wf_array (a : ndarray) : bool :=
  all (fun r => size r == ncols a) (rows a).

Definition square (a : ndarray) : bool := nrows a == ncols a.

Definition array_int64 (a : ndarray) : bool := all (all in_int64) (rows a).

(** [numpy.asarray(a, dtype=numpy.int64)] on a 2-D array. *)
Definition asarray2 (a : ndarray) : result ndarray :=
  if array_int64 a then Ok a else Err OverflowError.

(** [numpy.array_equal]. *)
Definition array_equal (a b : ndarray) : bool :=
  (ncols a == ncols b) && (rows a == rows b).

(** [a[i][j]]. *)
Definition item (a : ndarray) (i j : nat) : Z := nth 0%Z (nth [::] (rows a) i) j.

(** [a[r0:r1, c0:c1]] for bounds that are not negative; [None] is an omitted
    bound. *)
Definition slice {A : Type} (lo : nat) (hi : option nat) (s : seq A) : seq A :=
  drop lo (if hi is Some h then take h s else s).

Definition slice_len (lo : nat) (hi : option nat) (n : nat) : nat :=
  (if hi is Some h then minn h n else n) - lo.

Definition slice2 (a : ndarray) (r0 : nat) (r1 : option nat)
    (c0 : nat) (c1 : option nat) : ndarray :=
  NdArray (slice_len c0 c1 (ncols a)) [seq slice c0 c1 r | r <- slice r0 r1 (rows a)].

(** [l.reshape(k, w)] of a flat array. *)
Definition np_reshape (l : seq Z) (k w : nat) : result ndarray :=
  if size l == k * w then Ok (NdArray w (reshape (nseq k w) l))
  else Err ShapeError.

(** [l.reshape(k, -1)]: the number of columns is inferred. *)
Definition np_reshape_infer (l : seq Z) (k : nat) : result ndarray :=
  if (k == 0) || (size l %% k != 0) then Err ShapeError
  else np_reshape l k (size l %/ k).

(** [l.reshape(k)]: a flat array of exactly [k] items. *)
Definition np_reshape1 (l : seq Z) (k : nat) : result (seq Z) :=
  if size l == k then Ok l else Err ShapeError.

(** A flat array used as a column, as [numpy.c_] does. *)
Definition column (l : seq Z) : ndarray := NdArray 1 [seq [:: x] | x <- l].

(** A scalar inside [numpy.c_]: a 1x1 array. *)
Definition scalar (x : Z) : ndarray := NdArray 1 [:: [:: x]].

Definition hstack2 (a b : ndarray) : result ndarray :=
  if nrows a == nrows b
  then Ok (NdArray (ncols a + ncols b) [seq r.1 ++ r.2 | r <- zip (rows a) (rows b)])
  else Err ShapeError.

Definition vstack2 (a b : ndarray) : result ndarray :=
  if ncols a == ncols b
  then Ok (NdArray (ncols a) (rows a ++ rows b))
  else Err ShapeError.

(** [numpy.c_[a, b, ...]]: side by side. *)
Definition c_ (a : ndarray) (l : seq ndarray) : result ndarray :=
  foldl (fun acc b => x <- acc ;; hstack2 x b) (Ok a) l.

(** [numpy.r_[a, b, ...]]: one above the other. *)
Definition r_ (a : ndarray) (l : seq ndarray) : result ndarray :=
  foldl (fun acc b => x <- acc ;; vstack2 x b) (Ok a) l.

(** [cat[i][j] = x]; the value is converted to int64. *)
Definition setitem (a : ndarray) (i j : nat) (x : Z) : result ndarray :=
  if (i < nrows a) && (j < ncols a) then
    if in_int64 x then
      Ok (NdArray (ncols a)
            (set_nth [::] (rows a) i (set_nth 0%Z (nth [::] (rows a) i) j x)))
    else Err OverflowError
  else Err IndexError.

(** ** Exact determinant and cofactors (sympy) *)

(** A sequence without its item [k]. *)
Definition del {A : Type} (k : nat) (s : seq A) : seq A := take k s ++ drop k.+1 s.

(** [minor_submatrix(i, j)]. *)
Definition minor_rows (m : seq (seq Z)) (i j : nat) : seq (seq Z) :=
  [seq del j r | r <- del i m].

Definition sumz (F : nat -> Z) (s : seq nat) : Z :=
  foldr (fun i acc => (F i + acc)%Z) 0%Z s.

Definition sign (k : nat) : Z := if odd k then (-1)%Z else 1%Z.

(** Determinant of the leading [n] x [n] part, by expansion along row 0. *)
Fixpoint det_rows (n : nat) (m : seq (seq Z)) : Z :=
  if n is n'.+1 then
    sumz (fun j => (nth 0 (nth [::] m 0) j * (sign j * det_rows n' (minor_rows m 0 j)))%Z)
         (iota 0 n)
  else 1%Z.

Definition det (a : ndarray) : Z := det_rows (nrows a) (rows a).

(** [Matrix(cat).cofactor(i, j)]. *)
Definition cofactor_rows (n : nat) (m : seq (seq Z)) (i j : nat) : Z :=
  (sign (i + j) * det_rows n.-1 (minor_rows m i j))%Z.

Definition sympy_cofactor (a : ndarray) (i j : nat) : result Z :=
  if square a then
    if (i < nrows a) && (j < ncols a) then Ok (cofactor_rows (nrows a) (rows a) i j)
    else Err IndexError
  else Err NonSquareMatrixError.

(** ** Python slices with signed bounds *)

(** A slice bound brought into [0, n], as Python does: a negative bound counts
    from the end. *)
Definition py_index (n : nat) (i : Z) : nat :=
  if (i <? 0)%Z then Z.to_nat (Z.max 0 (i + Z.of_nat n)) else minn (Z.to_nat i) n.

(** [s[lo:hi]]. *)
Definition py_slice {A : Type} (lo hi : option Z) (s : seq A) : seq A :=
  let l := if lo is Some i then py_index (size s) i else 0 in
  let h := if hi is Some i then py_index (size s) i else size s in
  drop l (take h s).

(** ** ndcat/extension/block.py *)

(** What a sequence parameter holds: the Python integers of a list, or the
    [numpy.int64] scalars of an array. *)
Inductive items := PyInts | Int64s.

Module BlockExtension.

Definition check_parameters (dim : Z) (diag off_diag : seq Z)
    (swap_diag swap_off_diag : seq bool) : result Z :=
  if (dim <=? 1)%Z then Err InvalidDimension
  else
    let iterations := ((dim - 1) / 2)%Z in
    let required := (iterations * 2 + dim ^ 2 / 2)%Z in
    let actual :=
      Z.of_nat (size diag + size off_diag + size swap_diag + size swap_off_diag) in
    if (required =? actual)%Z then Ok iterations
    else Err (SizeMismatch required actual).

(** The items [p] and [q] are [numpy.int64] scalars: the product and the sum
    wrap around. *)
Definition _diagonal_cat_matrix (p q : Z) : ndarray :=
  if (mul64 p q =? 0)%Z then NdArray 2 [:: [:: 1; 1]; [:: 1; 2]]%Z
  else NdArray 2 [:: [:: add64 (mul64 p q) 1; p]; [:: q; 1%Z]].

(** The same function on Python integers, the items of a list: the product
    and the sum are exact, and [numpy.array(..., dtype=numpy.int64)] raises
    when an item does not fit int64. *)
Definition _diagonal_cat_matrix_int (p q : Z) : result ndarray :=
  if (p * q =? 0)%Z then Ok (NdArray 2 [:: [:: 1; 1]; [:: 1; 2]]%Z)
  else asarray2 (NdArray 2 [:: [:: (p * q + 1)%Z; p]; [:: q; 1%Z]]).

(** [take(data_iter, count)]: the array of the next [count] items (fewer when
    the iterator runs out) and the iterator that is left. *)
Definition take (data_iter : seq Z) (count : nat) : result (seq Z * seq Z) :=
  arr <- asarray (seq.take count data_iter) ;;
  Ok (arr, drop count data_iter).

Definition zeros_like (a : seq Z) : seq Z := nseq (size a) 0%Z.

(** [extend]; [kind] tells what [diag] holds.  [create] passes the arrays
    of [take]; a caller that passes a list passes Python integers. *)
Definition extend (kind : items) (matrix : ndarray) (diag off_diag : seq Z)
    (swap_diag swap_off_diag : bool) : result ndarray :=
  p <- getitem diag 0 ;;
  q <- getitem diag 1 ;;
  cat1 <- (if kind is Int64s then Ok (_diagonal_cat_matrix p q)
           else _diagonal_cat_matrix_int p q) ;;
  cat2 <- asarray2 matrix ;;
  mat1 <- asarray off_diag ;;
  let mat2 := zeros_like mat1 in
  let: (cat1, cat2) := if swap_diag then (cat2, cat1) else (cat1, cat2) in
  let: (mat1, mat2) := if swap_off_diag then (mat2, mat1) else (mat1, mat2) in
  m1 <- np_reshape_infer mat1 (nrows cat1) ;;
  top <- c_ cat1 [:: m1] ;;
  m2 <- np_reshape_infer mat2 (nrows cat2) ;;
  bottom <- c_ m2 [:: cat2] ;;
  r_ top [:: bottom].

(** The parity switch of [create]: 1 for an odd [dim], 2 for an even one. *)
Definition seed_size (dim : Z) : Z := ((dim + 1) mod 2 + 1)%Z.

(** The seed of [create] and what is left of [diag]. *)
Definition seed (dim : Z) (diag_iter : seq Z) : result (ndarray * seq Z) :=
  if (seed_size dim =? 1)%Z then Ok (NdArray 1 [:: [:: 1%Z]], diag_iter)
  else
    '(pq, diag_iter') <- take diag_iter 2 ;;
    if pq is [:: p; q] then Ok (_diagonal_cat_matrix p q, diag_iter')
    else Err UnpackError.

(** One turn of the loop of [create], on the current matrix and the two
    iterators. *)
Definition step (c : Z) (swap_diag swap_off_diag : seq bool)
    (st : ndarray * seq Z * seq Z) (i : nat) : result (ndarray * seq Z * seq Z) :=
  let: (cat, diag_iter, off_diag_iter) := st in
  let size := (2 * Z.of_nat i + c)%Z in
  '(d, diag_iter') <- take diag_iter 2 ;;
  '(o, off_diag_iter') <- take off_diag_iter (Z.to_nat (2 * size)) ;;
  sd <- getitem swap_diag i ;;
  so <- getitem swap_off_diag i ;;
  cat' <- extend Int64s cat d o sd so ;;
  Ok (cat', diag_iter', off_diag_iter').

Definition loop (c : Z) (swap_diag swap_off_diag : seq bool)
    (st : ndarray * seq Z * seq Z) (idx : seq nat) : result (ndarray * seq Z * seq Z) :=
  foldl (fun acc i => s <- acc ;; step c swap_diag swap_off_diag s i) (Ok st) idx.

Definition create (dim : Z) (diag off_diag : seq Z)
    (swap_diag swap_off_diag : seq bool) : result ndarray :=
  iterations <- check_parameters dim diag off_diag swap_diag swap_off_diag ;;
  '(cat, diag_iter) <- seed dim diag ;;
  '(cat', _, _) <- loop (seed_size dim) swap_diag swap_off_diag
                     (cat, diag_iter, off_diag) (iota 0 (Z.to_nat iterations)) ;;
  Ok cat'.

(** The sizes [random] draws. *)
Definition diag_size (dim : Z) : Z := (dim / 2 * 2)%Z.
Definition off_diag_size (dim : Z) : Z := (dim ^ 2 / 2 - diag_size dim)%Z.
Definition swap_size (dim : Z) : Z := ((dim - 1) / 2)%Z.

(** [random] with its four draws made explicit. *)
Definition random (dim : Z) (randint : nat -> seq Z) (choice : nat -> seq bool)
    : result ndarray :=
  let diag := randint (Z.to_nat (diag_size dim)) in
  let off_diag := randint (Z.to_nat (off_diag_size dim)) in
  let swap_diag := choice (Z.to_nat (swap_size dim)) in
  let swap_off_diag := choice (Z.to_nat (swap_size dim)) in
  create dim diag off_diag swap_diag swap_off_diag.

Definition split_sequence {A : Type} (dim : Z) (data : seq A)
    : seq A * seq A * seq A * seq A :=
  let diag_size := (dim / 2 * 2)%Z in
  let iterations := ((dim - 1) / 2)%Z in
  (py_slice None (Some diag_size) data,
   py_slice (Some diag_size) (Some (dim ^ 2 / 2)%Z) data,
   py_slice (Some (- 2 * iterations)%Z) (Some (- iterations)%Z) data,
   py_slice (Some (- iterations)%Z) None data).

End BlockExtension.

(** ** ndcat/extension/laplace.py *)

Module LaplaceExtension.

Definition check_parameters (dim : Z) (rows cols : seq (seq Z))
    (rows_loc cols_loc : seq nat) : result Z :=
  if (dim <=? 1)%Z then Err InvalidDimension
  else
    let iterations := (dim - 1)%Z in
    let required := ((dim - 1) * dim + 2 * (dim - 1))%Z in
    let actual :=
      Z.of_nat ((sumn [seq size s | s <- rows] + sumn [seq size s | s <- cols])
                + (size rows_loc + size cols_loc)) in
    if (required =? actual)%Z then Ok iterations
    else Err (SizeMismatch required actual).

(** The sum of [cat[i][c] * cofactor(i, c)] over the rows [i != r]. *)
Definition cofactors (cat : ndarray) (r c : nat) : result Z :=
  foldl (fun acc i =>
           cofactor_sum <- acc ;;
           if i != r then
             x <- (row <- getitem (rows cat) i ;; getitem row c) ;;
             cf <- sympy_cofactor cat i c ;;
             Ok (cofactor_sum + x * cf)%Z
           else Ok cofactor_sum)
        (Ok 0%Z) (iota 0 (nrows cat)).

(** [extend]; [row_loc] and [col_loc] are insertion indices counted from the
    start of the matrix, not negative. *)
Definition extend (matrix : ndarray) (row col : seq Z) (row_loc col_loc : nat)
    : result ndarray :=
  diag1 <- asarray2 (slice2 matrix 0 (Some row_loc) 0 (Some col_loc)) ;;
  diag2 <- asarray2 (slice2 matrix row_loc None col_loc None) ;;
  off_diag1 <- asarray2 (slice2 matrix 0 (Some row_loc) col_loc None) ;;
  off_diag2 <- asarray2 (slice2 matrix row_loc None 0 (Some col_loc)) ;;
  top <- (a <- asarray (slice 0 (Some row_loc) row) ;; np_reshape a row_loc 1) ;;
  bottom <- (a <- asarray (slice row_loc None row) ;; np_reshape1 a (nrows off_diag2)) ;;
  left <- (a <- asarray (slice 0 (Some col_loc) col) ;; np_reshape a 1 col_loc) ;;
  right <- (a <- asarray (slice col_loc None col) ;; np_reshape a 1 (ncols off_diag1)) ;;
  band1 <- c_ diag1 [:: top; off_diag1] ;;
  band2 <- c_ left [:: scalar 0; right] ;;
  band3 <- c_ off_diag2 [:: column bottom; diag2] ;;
  cat <- r_ band1 [:: band2; band3] ;;
  s <- cofactors cat row_loc col_loc ;;
  setitem cat row_loc col_loc (sign (row_loc + col_loc) * (1 - s))%Z.

Definition step (rows cols : seq (seq Z)) (rows_loc cols_loc : seq nat)
    (cat : ndarray) (i : nat) : result ndarray :=
  row <- getitem rows i ;;
  col <- getitem cols i ;;
  row_loc <- getitem rows_loc i ;;
  col_loc <- getitem cols_loc i ;;
  extend cat row col row_loc col_loc.

Definition create (dim : Z) (rows cols : seq (seq Z))
    (rows_loc cols_loc : seq nat) : result ndarray :=
  iterations <- check_parameters dim rows cols rows_loc cols_loc ;;
  foldl (fun acc i => cat <- acc ;; step rows cols rows_loc cols_loc cat i)
        (Ok (NdArray 1 [:: [:: 1%Z]])) (iota 0 (Z.to_nat iterations)).

(** [random] with its draws made explicit: [randint n] is an array of [n]
    items, [randloc i] an insertion index in [0, i]. *)
Definition random (dim : Z) (rand_rows rand_cols : nat -> seq Z)
    (rand_rloc rand_cloc : nat -> nat) : result ndarray :=
  let idx := iota 1 (Z.to_nat dim - 1) in
  create dim [seq rand_rows i | i <- idx] [seq rand_cols i | i <- idx]
             [seq rand_rloc i | i <- idx] [seq rand_cloc i | i <- idx].

Definition split_sequence {A : Type} (dim : Z) (source : seq A)
    : seq A * seq A * seq A * seq A :=
  let rows_size := ((dim - 1) * dim / 2)%Z in
  let iterations := (dim - 1)%Z in
  (py_slice None (Some rows_size) source,
   py_slice (Some rows_size) (Some (2 * rows_size)%Z) source,
   py_slice (Some (- 2 * iterations)%Z) (Some (- iterations)%Z) source,
   py_slice (Some (- iterations)%Z) None source).

End LaplaceExtension.

(** ** ndcat/generator.py *)

Module CatGenerator.

Inductive algorithm := Block | Laplace.

(** The positional arguments after [dim] and [algorithm] of [create]. *)
Inductive create_args :=
| BlockCreate (diag off_diag : seq Z) (swap_diag swap_off_diag : seq bool)
| LaplaceCreate (rows cols : seq (seq Z)) (rows_loc cols_loc : seq nat).

(** The positional arguments after [algorithm] and [matrix] of [extend],
    given as Python lists and values. *)
Inductive extend_args :=
| BlockExtend (diag off_diag : seq Z) (swap_diag swap_off_diag : bool)
| LaplaceExtend (row col : seq Z) (row_loc col_loc : nat).

(** [_expansion_dict]: the keys are the strings 'block' and 'laplace'; an
    integer is hashable and is no key. *)
Definition _expansion_dict (key : pyval) : option algorithm :=
  match key with
  | PyStr s =>
      if String.eqb s "block" then Some Block
      else if String.eqb s "laplace" then Some Laplace
      else None
  | PyInt _ => None
  end.

(** [cls.create(dim, *args)] of the class found in the dictionary: [dim] is
    compared with 1, which needs an integer. *)
Definition class_create (cls : algorithm) (dim : pyval) (args : create_args)
    : result ndarray :=
  match dim, cls, args with
  | PyInt d, Block, BlockCreate diag off_diag swap_diag swap_off_diag =>
      BlockExtension.create d diag off_diag swap_diag swap_off_diag
  | PyInt d, Laplace, LaplaceCreate rows cols rows_loc cols_loc =>
      LaplaceExtension.create d rows cols rows_loc cols_loc
  | _, _, _ => Err TypeError
  end.

Definition class_extend (cls : algorithm) (matrix : ndarray) (args : extend_args)
    : result ndarray :=
  match cls, args with
  | Block, BlockExtend diag off_diag swap_diag swap_off_diag =>
      BlockExtension.extend PyInts matrix diag off_diag swap_diag swap_off_diag
  | Laplace, LaplaceExtend row col row_loc col_loc =>
      LaplaceExtension.extend matrix row col row_loc col_loc
  | _, _ => Err TypeError
  end.

Definition create (dim : pyval) (algorithm : pyval) (args : create_args)
    : result ndarray :=
  if _expansion_dict algorithm is Some cls then class_create cls dim args
  else Err (UnknownAlgorithm algorithm).

Definition extend (algorithm : pyval) (matrix : ndarray) (args : extend_args)
    : result ndarray :=
  if _expansion_dict algorithm is Some cls then class_extend cls matrix args
  else Err (UnknownAlgorithm algorithm).

(** [cls.split_sequence(dim, source)] of the class found in the dictionary:
    the slice bounds are computed from [dim], which needs an integer. *)
Definition class_split_sequence {A : Type} (cls : algorithm) (dim : pyval)
    (source : seq A) : result (seq A * seq A * seq A * seq A) :=
  match dim, cls with
  | PyInt d, Block => Ok (BlockExtension.split_sequence d source)
  | PyInt d, Laplace => Ok (LaplaceExtension.split_sequence d source)
  | PyStr _, _ => Err TypeError
  end.

Definition split_sequence {A : Type} (dim : pyval) (algorithm : pyval)
    (source : seq A) : result (seq A * seq A * seq A * seq A) :=
  if _expansion_dict algorithm is Some cls then class_split_sequence cls dim source
  else Err (UnknownAlgorithm algorithm).

End CatGenerator.

(** ** ndcat/matrix.py *)

Module CatMatrix.

(** The object: its two attributes. *)
Record t := Make { _matrix : ndarray; _dim : nat }.

(** [is_cat]: a square array whose determinant is 1.  The items are integers,
    so the test of integer values always passes; the floating determinant of
    [numpy.linalg.det] is taken as the exact one. *)
Definition is_cat (arr : ndarray) : bool :=
  if ~~ square arr then false
  else if ~~ (det arr == 1%Z) then false
  else true.

(** The setter of the [matrix] property: the new value of [_matrix]. *)
Definition set_matrix (matrix : ndarray) : result ndarray :=
  if is_cat matrix then Ok matrix else Err InvalidMatrix.

(** [__init__]. *)
Definition init (matrix : ndarray) : result t :=
  m <- set_matrix matrix ;;
  Ok (Make m (nrows m)).

(** [create(cls, dim, algorithm, *args)]: the generator is called with
    [algorithm] first and [dim] second. *)
Definition create (dim : pyval) (algorithm : pyval)
    (args : CatGenerator.create_args) : result t :=
  m <- CatGenerator.create algorithm dim args ;;
  init m.

(** [extend(self, algorithm, *args)]: assigns [_matrix] itself. *)
Definition extend (self : t) (algorithm : pyval)
    (args : CatGenerator.extend_args) : result t :=
  m <- CatGenerator.extend algorithm (_matrix self) args ;;
  Ok (Make m (_dim self)).

End CatMatrix.

(** ** ndcat/map.py *)

Module CatMap.

Import CatMatrix.

(** Column [j] of an array. *)
Definition col (j : nat) (a : ndarray) : seq Z := [seq nth 0%Z r j | r <- rows a].

(** One item of an int64 matrix product. *)
Definition dot64 (r x : seq Z) : Z :=
  foldl add64 0%Z [seq mul64 p.1 p.2 | p <- zip r x].

(** [numpy.matmul] of two int64 arrays. *)
Definition matmul (a b : ndarray) : result ndarray :=
  if ncols a == nrows b
  then Ok (NdArray (ncols b)
             [seq [seq dot64 r (col j b) | j <- iota 0 (ncols b)] | r <- rows a])
  else Err ShapeError.

(** [x % size] on int64 items: the remainder has the sign of [size]; a zero
    [size] gives 0. *)
Definition np_mod (size x : Z) : Z := if (size =? 0)%Z then 0%Z else (x mod size)%Z.

(** [mapping(data, size)]: [data] is given by its items in row-major order.
    The matrix is an int64 array, and [size] and the items of [data] are
    integers that fit int64: beyond that range [numpy] raises or gives the
    array another dtype. *)
Definition mapping (self : t) (data : seq Z) (size : Z) : result ndarray :=
  x <- np_reshape_infer data (_dim self) ;;
  prod <- matmul (_matrix self) x ;;
  Ok (NdArray (ncols prod) [seq [seq np_mod size v | v <- r] | r <- rows prod]).

(** [res] broadcast to the shape of [out], for [out[...] = res]. *)
Definition broadcast (res out : ndarray) : result ndarray :=
  if ((nrows res == nrows out) || (nrows res == 1))
     && ((ncols res == ncols out) || (ncols res == 1)) then
    let wide := if ncols res == ncols out then rows res
                else [seq nseq (ncols out) (head 0%Z r) | r <- rows res] in
    Ok (NdArray (ncols out)
          (if nrows res == nrows out then wide else nseq (nrows out) (head [::] wide)))
  else Err ShapeError.

(** [mapping(data, size, out=out)]: the new content of the int64 buffer
    [out]. *)
Definition mapping_out (self : t) (data : seq Z) (size : Z) (out : ndarray)
    : result ndarray :=
  res <- mapping self data size ;;
  broadcast res out.

(** The points of the grid [vals^dimension], in row-major order. *)
Fixpoint points (dimension : nat) (vals : seq Z) : seq (seq Z) :=
  if dimension is d.+1 then [seq v :: p | v <- vals, p <- points d vals]
  else [:: [::]].

(** [numpy.arange(size)]. *)
Definition arange (size : Z) : seq Z := [seq Z.of_nat i | i <- iota 0 (Z.to_nat size)].

(** [cube_coord]: the array whose columns are the points of the grid.  An
    empty [meshgrid] cannot be reshaped. *)
Definition cube_coord (dimension : nat) (size : Z) : result ndarray :=
  if dimension == 0 then Err ShapeError
  else
    let pts := points dimension (arange size) in
    Ok (NdArray (seq.size pts) [seq [seq nth 0%Z p k | p <- pts] | k <- iota 0 dimension]).

(** The [while] loop of [period], run for at most [fuel] turns; [None] when
    the fuel runs out. *)
Fixpoint period_loop (fuel : nat) (self : t) (size : Z) (coord coord_p : ndarray)
    (period : nat) : result (option nat) :=
  if array_equal coord coord_p then Ok (Some period)
  else if fuel is fuel'.+1 then
    coord_p' <- mapping_out self (flatten (rows coord_p)) size coord_p ;;
    period_loop fuel' self size coord coord_p' period.+1
  else Ok None.

Definition period (fuel : nat) (self : t) (size : Z) : result (option nat) :=
  coord <- cube_coord (_dim self) size ;;
  coord_p <- mapping self (flatten (rows coord)) size ;;
  period_loop fuel self size coord coord_p 1.

End CatMap.

(** ** Predicates of the statements *)

(** [v] is in [0, size). *)
Definition in_range (size v : Z) : bool := (0 <=? v)%Z && (v <? size)%Z.


(** The [m] x [n] matrix of MathComp read off a list of rows. *)
Definition mx_of (m n : nat) (a : seq (seq Z)) : 'M[Z]_(m, n) :=
  \matrix_(i, j) nth 0%Z (nth [::] a i) j.

(** A sequence with [x] put in at position [k]. *)
Definition ins {A : Type} (k : nat) (x : A) (s : seq A) : seq A :=
  take k s ++ x :: drop k s.

(** The candidate of [LaplaceExtension.extend]: the three bands with the
    placeholder 0 in the new cell. *)
Definition laplace_candidate (matrix : ndarray) (row col : seq Z)
    (row_loc col_loc : nat) : ndarray :=
  NdArray (ncols matrix).+1
    (ins row_loc (ins col_loc 0%Z col)
       [seq ins col_loc p.1 p.2 | p <- zip row (rows matrix)]).

(** The sum of [cat[i][c] * cofactor(i, c)] over the rows [i != r]: what
    [LaplaceExtension.cofactors] returns on a square array. *)
Definition cofactor_sum (a : ndarray) (r c : nat) : Z :=
  sumz (fun i => if i != r
                 then (item a i c * cofactor_rows (nrows a) (rows a) i c)%Z
                 else 0%Z)
       (iota 0 (nrows a)).

(** A well-formed [n] x [n] array of int64 items with determinant 1. *)
Definition unimodular (n : nat) (a : ndarray) : bool :=
  [&& wf_array a, nrows a == n, ncols a == n, array_int64 a & det a == 1%Z].

(** The diagonal block of [p] and [q] is built without a lost carry: the
    int64 product wraps to 0 (the fixed block is used) or [p * q + 1] fits
    int64. *)
Definition block_ok (p q : Z) : bool :=
  (mul64 p q =? 0)%Z || in_int64 (p * q + 1).

(** [block_ok] on the consecutive pairs of [diag]. *)
Fixpoint pairs_ok (diag : seq Z) : bool :=
  if diag is p :: q :: diag' then block_ok p q && pairs_ok diag' else true.

(** The number of items of [off_diag] the turns [i .. i + k - 1] of the loop
    of [BlockExtension.create] consume, for a seed of size [c]. *)
Definition off_diag_need (i k c : nat) : nat :=
  sumn [seq 2 * (2 * j + c) | j <- iota i k].

(** The exact dot product of a row and a vector. *)
Definition dot (r x : seq Z) : Z :=
  foldr (fun p acc => (p.1 * p.2 + acc)%Z) 0%Z (zip r x).

(** A point of the grid [[0, size)^d]. *)
Definition in_grid (d : nat) (size : Z) (x : seq Z) : bool :=
  (seq.size x == d) && all (in_range size) x.

(** No item of the product [matrix . x] leaves the int64 range. *)
Definition no_overflow (matrix : ndarray) (x : seq Z) : bool :=
  all (fun r => in_int64 (dot r x)) (rows matrix).

(** The image of one point: what [mapping] computes on a single column. *)
Definition map_point (matrix : ndarray) (size : Z) (x : seq Z) : seq Z :=
  [seq CatMap.np_mod size (CatMap.dot64 r x) | r <- rows matrix].

(** A flat vector as a column matrix of MathComp. *)
Definition col_of (d : nat) (x : seq Z) : 'cV[Z]_d := \col_i nth 0%Z x i.

(** The array whose columns are the points [pts], each of [d] items. *)
Definition of_cols (d : nat) (pts : seq (seq Z)) : ndarray :=
  NdArray (seq.size pts) [seq [seq nth 0%Z p k | p <- pts] | k <- iota 0 d].

(** The grid [[0, size)^d], in the order of [cube_coord]. *)
Definition grid (d : nat) (size : Z) : seq (seq Z) :=
  CatMap.points d (CatMap.arange size).

(** [k] applications of the map return every point of the grid to itself. *)
Definition returns_grid (matrix : ndarray) (d : nat) (size : Z) (k : nat) : bool :=
  [seq iter k (map_point matrix size) x | x <- grid d size] == grid d size.

(** The parameters [LaplaceExtension.create] consumes for [n] extensions, as
    [LaplaceExtension.random] draws them: [n] rows and [n] columns, the
    [i]-th of [i + 1] int64 items, and [n] insertion indices for each, the
    [i]-th in [[0, i + 1]]. *)
Definition laplace_args_ok (n : nat) (rows cols : seq (seq Z))
    (rows_loc cols_loc : seq nat) : bool :=
  [&& seq.size rows == n, seq.size cols == n,
      seq.size rows_loc == n, seq.size cols_loc == n
    & all (fun i =>
             [&& seq.size (nth [::] rows i) == i.+1, all in_int64 (nth [::] rows i),
                 seq.size (nth [::] cols i) == i.+1, all in_int64 (nth [::] cols i),
                 nth 0 rows_loc i <= i.+1 & nth 0 cols_loc i <= i.+1])
          (iota 0 n)].

(** The new entry of [LaplaceExtension.extend], computed exactly: the
    candidate's cofactor sum [S] gives [(-1) ^ (row_loc + col_loc) * (1 - S)]. *)
Definition laplace_entry (matrix : ndarray) (row col : seq Z)
    (row_loc col_loc : nat) : Z :=
  (sign (row_loc + col_loc)
   * (1 - cofactor_sum (laplace_candidate matrix row col row_loc col_loc)
            row_loc col_loc))%Z.

(** The candidate with the new entry in its cell. *)
Definition laplace_next (matrix : ndarray) (row col : seq Z)
    (row_loc col_loc : nat) : ndarray :=
  let cand := laplace_candidate matrix row col row_loc col_loc in
  NdArray (ncols cand)
    (set_nth [::] (rows cand) row_loc
       (set_nth 0%Z (nth [::] (rows cand) row_loc) col_loc
          (laplace_entry matrix row col row_loc col_loc))).

(** The matrix that the turns [i], ..., [i + k - 1] of the loop of
    [LaplaceExtension.create] build from [cat], computed exactly. *)
Fixpoint laplace_exact (rows cols : seq (seq Z)) (rows_loc cols_loc : seq nat)
    (cat : ndarray) (i k : nat) : ndarray :=
  if k is k'.+1 then
    laplace_exact rows cols rows_loc cols_loc
      (laplace_next cat (nth [::] rows i) (nth [::] cols i)
         (nth 0 rows_loc i) (nth 0 cols_loc i))
      i.+1 k'
  else cat.

(** Every new entry of these turns fits int64. *)
Fixpoint laplace_fits (rows cols : seq (seq Z)) (rows_loc cols_loc : seq nat)
    (cat : ndarray) (i k : nat) : bool :=
  if k is k'.+1 then
    in_int64 (laplace_entry cat (nth [::] rows i) (nth [::] cols i)
                (nth 0 rows_loc i) (nth 0 cols_loc i))
    && laplace_fits rows cols rows_loc cols_loc
         (laplace_next cat (nth [::] rows i) (nth [::] cols i)
            (nth 0 rows_loc i) (nth 0 cols_loc i))
         i.+1 k'
  else true.

(** The diagonal block of the Python integers [p] and [q] can be stored in
    an int64 array: the fixed block is used ([p * q = 0]), or [p * q + 1],
    [p] and [q] fit int64. *)
Definition block_fits (p q : Z) : bool :=
  (p * q =? 0)%Z || [&& in_int64 (p * q + 1), in_int64 p & in_int64 q].

(** * Properties *)

(** ** Arithmetic helpers *)

#[local] Arguments Z.add : simpl never.
#[local] Arguments Z.sub : simpl never.
#[local] Arguments Z.mul : simpl never.
#[local] Arguments Z.opp : simpl never.
#[local] Arguments Z.pow : simpl never.
#[local] Arguments Z.div : simpl never.
#[local] Arguments Z.modulo : simpl never.
#[local] Arguments Z.of_nat : simpl never.
#[local] Arguments Z.to_nat : simpl never.

Lemma ZaddE (a b : Z) : GRing.add a b = (a + b)%Z.
Proof. by []. Qed.

Lemma ZmulE (a b : Z) : GRing.mul a b = (a * b)%Z.
Proof. by []. Qed.

Lemma ZoppE (a : Z) : GRing.opp a = (- a)%Z.
Proof. by []. Qed.

Lemma Zzero : (0 : Z)%R = 0%Z.
Proof. by []. Qed.

Lemma Zone : (1 : Z)%R = 1%Z.
Proof. by []. Qed.

Definition ZringE := (ZaddE, ZmulE, ZoppE, Zzero, Zone).

(** Goals on [nat] written with ssrnat, brought to the form [lia] reads. *)
Ltac ssr_lia :=
  repeat match goal with
  | H : is_true (_ <= _)%N |- _ => move/leP: H => H
  | H : is_true (_ == _ :> nat) |- _ => move/eqP: H => H
  | H : is_true (_ != _ :> nat) |- _ => move/eqP: H => H
  | H : (_ <= _)%N = false |- _ => move/negbT: H; rewrite -ltnNge => /leP H
  | H : (_ == _ :> nat) = false |- _ => move/eqP: H => H
  | |- is_true (_ <= _)%N => apply/leP
  | |- is_true (_ == _ :> nat) => apply/eqP
  | |- is_true (_ != _ :> nat) => apply/eqP
  end;
  rewrite -?plusE -?minusE -?multE; lia.

Lemma wrap64_id (z : Z) : in_int64 z -> wrap64 z = z.
Proof.
rewrite /in_int64 /wrap64 /int64_min /int64_max => /andP [/Z.leb_le lo /Z.leb_le hi].
rewrite Z.mod_small; lia.
Qed.

Lemma wrap64_in (z : Z) : in_int64 (wrap64 z).
Proof.
rewrite /in_int64 /wrap64 /int64_min /int64_max.
have := Z.mod_pos_bound (z + 2 ^ 63) (2 ^ 64) erefl.
by move=> [lo hi]; apply/andP; split; apply/Z.leb_le; lia.
Qed.

Lemma wrap64_eqm (z : Z) : (wrap64 z mod 2 ^ 64 = z mod 2 ^ 64)%Z.
Proof.
rewrite /wrap64 Zminus_mod Zmod_mod -Zminus_mod.
by congr (_ mod _)%Z; lia.
Qed.

(** ** Results *)

Lemma bind_ok {A B : Type} (r : result A) (k : A -> result B) (b : B) :
  bind r k = Ok b -> exists2 a, r = Ok a & k a = Ok b.
Proof. by case: r => [a|e] //= H; exists a. Qed.

Lemma getitem_nth {A : Type} (x0 : A) (s : seq A) (i : nat) :
  i < size s -> getitem s i = Ok (nth x0 s i).
Proof. by move=> lt_i; rewrite /getitem (nth_map x0). Qed.

Lemma getitem_ok {A : Type} (x0 : A) (s : seq A) (i : nat) (x : A) :
  getitem s i = Ok x -> i < size s /\ x = nth x0 s i.
Proof.
rewrite /getitem; case: (ltnP i (size s)) => [lt_i | ge_i].
  by rewrite (nth_map x0) // => -[<-].
by rewrite nth_default // size_map.
Qed.

(** ** C6: the count checked by [BlockExtension.check_parameters] *)

Section BlockCheck.

Import BlockExtension.

Variables (dim : Z) (diag off_diag : seq Z) (swap_diag swap_off_diag : seq bool).

Let iterations : Z := ((dim - 1) / 2)%Z.
Let required : Z := (iterations * 2 + dim ^ 2 / 2)%Z.
Let actual : Z :=
  Z.of_nat (size diag + size off_diag + size swap_diag + size swap_off_diag).

Lemma check_parameters_small :
  (dim <= 1)%Z ->
  check_parameters dim diag off_diag swap_diag swap_off_diag = Err InvalidDimension.
Proof. by rewrite /check_parameters => /Z.leb_le ->. Qed.

Lemma check_parameters_eq :
  (2 <= dim)%Z ->
  check_parameters dim diag off_diag swap_diag swap_off_diag
  = if (required =? actual)%Z then Ok iterations
    else Err (SizeMismatch required actual).
Proof.
move=> dim2; rewrite /check_parameters.
by have /Z.leb_gt -> : (1 < dim)%Z by lia.
Qed.

End BlockCheck.

(** C6, as the code has it: from dimension 2 on, [check_parameters] raises
    [SizeMismatch] exactly when the lengths of all four sequences ([diag],
    [off_diag], [swap_diag] and [swap_off_diag]) do not add up to
    [iterations * 2 + dim ^ 2 / 2], the error carries the required and the
    actual count, and otherwise [iterations = (dim - 1) / 2] is returned; for
    [dim = 2], a [diag] of two items and nothing else, the result is 0 and
    the required count is 2. *)
Theorem block_check_parameters_spec (dim : Z) (diag off_diag : seq Z)
    (swap_diag swap_off_diag : seq bool) :
  (2 <= dim)%Z ->
  let iterations := ((dim - 1) / 2)%Z in
  let required := (iterations * 2 + dim ^ 2 / 2)%Z in
  let actual :=
    Z.of_nat (size diag + size off_diag + size swap_diag + size swap_off_diag) in
  [/\ (exists r a, BlockExtension.check_parameters dim diag off_diag
                     swap_diag swap_off_diag = Err (SizeMismatch r a))
      <-> actual <> required,
      actual <> required ->
      BlockExtension.check_parameters dim diag off_diag swap_diag swap_off_diag
      = Err (SizeMismatch required actual),
      actual = required ->
      BlockExtension.check_parameters dim diag off_diag swap_diag swap_off_diag
      = Ok iterations
    & forall p q : Z,
      BlockExtension.check_parameters 2 [:: p; q] [::] [::] [::] = Ok 0%Z
      /\ ((2 - 1) / 2 * 2 + 2 ^ 2 / 2 = 2)%Z].
Proof.
move=> dim2 iterations required actual.
have E := check_parameters_eq diag off_diag swap_diag swap_off_diag dim2.
rewrite -/iterations -/required -/actual in E.
split.
- rewrite E; case: Z.eqb_spec => [-> | ne].
    by split=> [[r [a]] // | ].
  by split=> [_ | _]; [move=> e; apply: ne | exists required, actual].
- by move=> ne; rewrite E; case: Z.eqb_spec => // e; case: ne.
- by move=> e; rewrite E e Z.eqb_refl.
- by [].
Qed.

Lemma block_check_parameters_spec_witness :
  (2 <= 3)%Z /\
  BlockExtension.check_parameters 3 [:: 1; 2]%Z [:: 3; 4]%Z [:: true] [:: false]
  = Ok 1%Z.
Proof.
have dim2 : (2 <= 3)%Z by lia.
split; first exact: dim2.
have [_ _ H _] :=
  @block_check_parameters_spec 3 [:: 1; 2]%Z [:: 3; 4]%Z [:: true] [:: false] dim2.
exact: H.
Defined.

(** C6 as the claim words it fails: with [dim = 3], two items in [diag], two
    in [off_diag] and one swap flag each, [diag] and [off_diag] together hold
    4 items, not the required 6, and no error is raised. *)
Lemma block_check_parameters_counts_flags :
  ~ ((exists r a,
        BlockExtension.check_parameters 3 [:: 1; 2]%Z [:: 3; 4]%Z [:: true] [:: false]
        = Err (SizeMismatch r a))
     <-> Z.of_nat (size [:: 1; 2]%Z + size [:: 3; 4]%Z)
         <> ((3 - 1) / 2 * 2 + 3 ^ 2 / 2)%Z).
Proof. by case=> _ H; case: H => // r [a]. Qed.

(** ** C5: the seed of [BlockExtension.create] *)

Lemma seed_size_odd (dim : Z) : Z.odd dim -> BlockExtension.seed_size dim = 1%Z.
Proof.
rewrite /BlockExtension.seed_size => odd_dim.
have := Zmod_odd dim; rewrite odd_dim => dim_mod.
by rewrite Zplus_mod dim_mod.
Qed.

Lemma seed_size_even (dim : Z) : Z.even dim -> BlockExtension.seed_size dim = 2%Z.
Proof.
rewrite /BlockExtension.seed_size => even_dim.
have := Zmod_even dim; rewrite even_dim => dim_mod.
by rewrite Zplus_mod dim_mod.
Qed.

Lemma block_seed_odd (dim : Z) (diag : seq Z) :
  Z.odd dim ->
  BlockExtension.seed dim diag = Ok (NdArray 1 [:: [:: 1%Z]], diag).
Proof. by move=> odd_dim; rewrite /BlockExtension.seed seed_size_odd. Qed.

Lemma block_seed_even (dim : Z) (p q : Z) (rest : seq Z) :
  Z.even dim -> in_int64 p -> in_int64 q ->
  BlockExtension.seed dim (p :: q :: rest)
  = Ok (BlockExtension._diagonal_cat_matrix p q, rest).
Proof.
move=> even_dim p64 q64; rewrite /BlockExtension.seed seed_size_even //=.
by rewrite /BlockExtension.take /asarray /= p64 q64 /= take0 drop0.
Qed.

(** C5, as the code has it: for an odd [dim] the seed is [[1]] and no item of
    [diag] is consumed; for an even [dim] the first two items [p], [q] of
    [diag] are consumed and the seed is the diagonal block of [p] and [q]. *)
Theorem block_seed_parity (dim : Z) (diag : seq Z) :
  (Z.odd dim ->
   BlockExtension.seed dim diag = Ok (NdArray 1 [:: [:: 1%Z]], diag))
  /\ (Z.even dim ->
      forall p q rest, diag = p :: q :: rest -> in_int64 p -> in_int64 q ->
      BlockExtension.seed dim diag
      = Ok (BlockExtension._diagonal_cat_matrix p q, rest)).
Proof.
split=> [odd_dim | even_dim p q rest -> p64 q64]; first exact: block_seed_odd.
exact: block_seed_even.
Qed.

Lemma block_seed_parity_witness :
  BlockExtension.seed 3 [:: 3; 5]%Z = Ok (NdArray 1 [:: [:: 1%Z]], [:: 3; 5]%Z)
  /\ BlockExtension.seed 2 [:: 3; 5]%Z
     = Ok (BlockExtension._diagonal_cat_matrix 3 5, [::]).
Proof.
split.
  by have [H _] := block_seed_parity 3 [:: 3; 5]%Z; apply: H.
have [_ H] := block_seed_parity 2 [:: 3; 5]%Z.
exact: (H isT 3%Z 5%Z [::] erefl isT isT).
Defined.

(** C5 as the claim words it fails: for the even [dim = 2] the seed is not
    [[1]], and the two items of [diag] are consumed. *)
Lemma block_seed_even_consumes :
  ~ (Z.even 2 ->
     BlockExtension.seed 2 [:: 3; 5]%Z = Ok (NdArray 1 [:: [:: 1%Z]], [:: 3; 5]%Z)).
Proof. by move=> H; have := H isT. Qed.

(** ** C7: [split_sequence] *)

Section Split.

Variable A : Type.
Implicit Types a b c d s : seq A.

Lemma py_index_nonneg (n : nat) (k : nat) :
  py_index n (Z.of_nat k) = minn k n.
Proof.
rewrite /py_index; have /Z.ltb_ge -> : (0 <= Z.of_nat k)%Z by lia.
by rewrite Nat2Z.id.
Qed.

Lemma py_index_neg (n : nat) (k : nat) :
  0 < k -> py_index n (- Z.of_nat k) = n - k.
Proof.
move=> k_gt0; rewrite /py_index.
have /Z.ltb_lt -> : (- Z.of_nat k < 0)%Z by ssr_lia.
apply: Nat2Z.inj; rewrite Z2Nat.id; first by lia.
by case: (leqP k n) => H; ssr_lia.
Qed.

Lemma py_slice_prefix a b (k : Z) :
  k = Z.of_nat (size a) -> py_slice None (Some k) (a ++ b) = a.
Proof.
move=> ->; rewrite /py_slice py_index_nonneg size_cat drop0.
have /minn_idPl -> : size a <= size a + size b by rewrite leq_addr.
by rewrite take_size_cat.
Qed.

Lemma py_slice_middle a b c (k1 k2 : Z) :
  k1 = Z.of_nat (size a) -> k2 = Z.of_nat (size a + size b) ->
  py_slice (Some k1) (Some k2) (a ++ b ++ c) = b.
Proof.
move=> -> ->; rewrite /py_slice !py_index_nonneg !size_cat.
have /minn_idPl -> : size a <= size a + (size b + size c) by rewrite leq_addr.
have /minn_idPl -> : size a + size b <= size a + (size b + size c).
  by rewrite leq_add2l leq_addr.
by rewrite catA take_size_cat ?size_cat // drop_size_cat.
Qed.

Lemma py_slice_suffix a d (k : nat) :
  0 < k -> size d = k -> py_slice (Some (- Z.of_nat k)%Z) None (a ++ d) = d.
Proof.
move=> k_gt0 sz_d; rewrite /py_slice py_index_neg // take_size size_cat sz_d.
by rewrite addnK drop_size_cat.
Qed.

Lemma py_slice_before_last a c d (k : nat) :
  size c = k -> size d = k ->
  py_slice (Some (- 2 * Z.of_nat k)%Z) (Some (- Z.of_nat k)%Z) (a ++ c ++ d) = c.
Proof.
move=> sz_c sz_d; case: k => [|k] in sz_c sz_d *.
  rewrite (size0nil sz_c) (size0nil sz_d) /py_slice /py_index /=.
  by rewrite !min0n take0.
have -> : (- 2 * Z.of_nat k.+1 = - Z.of_nat (k.+1 + k.+1))%Z by ssr_lia.
rewrite /py_slice !py_index_neg // ?addSn // -addSn !size_cat sz_c sz_d.
rewrite addnK addnA addnK catA take_size_cat ?size_cat ?sz_c //.
by rewrite drop_size_cat.
Qed.

(** For three dimensions or more the block packing is split back into its
    four chunks. *)
Lemma block_split_sequence_roundtrip (dim : Z) a b c d :
  (3 <= dim)%Z ->
  Z.of_nat (size a) = BlockExtension.diag_size dim ->
  Z.of_nat (size b) = BlockExtension.off_diag_size dim ->
  Z.of_nat (size c) = BlockExtension.swap_size dim ->
  Z.of_nat (size d) = BlockExtension.swap_size dim ->
  BlockExtension.split_sequence dim (a ++ b ++ c ++ d) = (a, b, c, d).
Proof.
rewrite /BlockExtension.off_diag_size /BlockExtension.diag_size.
rewrite /BlockExtension.swap_size /BlockExtension.split_sequence.
move=> dim3 sz_a sz_b sz_c sz_d.
have it_gt0 : (0 < (dim - 1) / 2)%Z by apply: Z.div_str_pos; lia.
have sz_cd : size c = size d by apply: Nat2Z.inj; rewrite sz_c sz_d.
have d_gt0 : 0 < size d by apply/ltP; lia.
have e2 : (dim ^ 2 / 2)%Z = Z.of_nat (size a + size b).
  rewrite -plusE Nat2Z.inj_add sz_a sz_b.
  by move: (dim ^ 2 / 2)%Z (dim / 2 * 2)%Z => x y; lia.
rewrite -sz_a -sz_d (py_slice_prefix _ erefl) (py_slice_middle _ erefl e2).
rewrite catA (py_slice_before_last _ sz_cd erefl).
by rewrite catA (py_slice_suffix _ d_gt0 erefl).
Qed.

(** The Laplace packing is split back into its four chunks from dimension 2
    on; the rows and the columns are the flattened draws. *)
Lemma laplace_split_sequence_roundtrip (dim : Z) a b c d :
  (2 <= dim)%Z ->
  Z.of_nat (size a) = ((dim - 1) * dim / 2)%Z ->
  Z.of_nat (size b) = ((dim - 1) * dim / 2)%Z ->
  Z.of_nat (size c) = (dim - 1)%Z ->
  Z.of_nat (size d) = (dim - 1)%Z ->
  LaplaceExtension.split_sequence dim (a ++ b ++ c ++ d) = (a, b, c, d).
Proof.
rewrite /LaplaceExtension.split_sequence => dim2 sz_a sz_b sz_c sz_d.
have sz_cd : size c = size d by apply: Nat2Z.inj; rewrite sz_c sz_d.
have d_gt0 : 0 < size d by apply/ltP; lia.
have e2 : (2 * Z.of_nat (size a))%Z = Z.of_nat (size a + size b).
  rewrite -plusE Nat2Z.inj_add sz_a sz_b.
  by move: ((dim - 1) * dim / 2)%Z => x; lia.
rewrite -sz_a -sz_d (py_slice_prefix _ erefl) (py_slice_middle _ erefl e2).
rewrite catA (py_slice_before_last _ sz_cd erefl).
by rewrite catA (py_slice_suffix _ d_gt0 erefl).
Qed.

End Split.

Lemma sumn_iota1 (n : nat) : sumn (iota 1 n) * 2 = n * n.+1.
Proof.
elim: n => [|n IH] //.
have -> : iota 1 n.+1 = iota 1 n ++ [:: n.+1].
  by rewrite -[n.+1]addn1 iotaD /= addnC.
by rewrite sumn_cat /= addn0 mulnDl IH [n * _]mulnC -mulnDr addn2.
Qed.

(** The flattened rows drawn by [LaplaceExtension.random] hold
    [(dim - 1) * dim / 2] items. *)
Lemma laplace_rows_size (n : nat) (rows : seq (seq Z)) :
  [seq size r | r <- rows] = iota 1 n ->
  Z.of_nat (size (flatten rows)) = (Z.of_nat n * (Z.of_nat n + 1) / 2)%Z.
Proof.
rewrite size_flatten /shape => ->.
have := sumn_iota1 n; rewrite -!multE => /(congr1 Z.of_nat).
rewrite !Nat2Z.inj_mul (Nat2Z.inj_succ n) -Z.add_1_r => <-.
by rewrite Z.div_mul.
Qed.

(** C7 at the input where the code departs from it: for [dim = 2] the block
    packing holds [diag = [p; q]] and three empty chunks; the last chunk
    returned is the whole sequence, since [data[-0:]] is [data[0:]]. *)
Theorem block_split_sequence_dim2 (A : Type) (p q : A) :
  BlockExtension.split_sequence 2 ([:: p; q] ++ [::] ++ [::] ++ [::])
  = ([:: p; q], [::], [::], [:: p; q]).
Proof. by []. Qed.

(** ** C8: dispatch by algorithm name *)

Lemma expansion_dict_unknown (name : string) :
  name <> "block"%string -> name <> "laplace"%string ->
  CatGenerator._expansion_dict (PyStr name) = None.
Proof.
move=> nb nl; rewrite /CatGenerator._expansion_dict.
by case: String.eqb_spec => // _; case: String.eqb_spec.
Qed.

(** [CatGenerator.create] rejects every name but 'block' and 'laplace'. *)
Lemma generator_create_unknown (dim : pyval) (name : string)
    (args : CatGenerator.create_args) :
  name <> "block"%string -> name <> "laplace"%string ->
  CatGenerator.create dim (PyStr name) args = Err (UnknownAlgorithm (PyStr name)).
Proof. by move=> nb nl; rewrite /CatGenerator.create expansion_dict_unknown. Qed.

(** [CatGenerator.create] hands 'block' and 'laplace' to their classes. *)
Lemma generator_create_dispatch (dim : Z) :
  (forall diag off_diag swap_diag swap_off_diag,
     CatGenerator.create (PyInt dim) (PyStr "block")
       (CatGenerator.BlockCreate diag off_diag swap_diag swap_off_diag)
     = BlockExtension.create dim diag off_diag swap_diag swap_off_diag)
  /\ (forall rows cols rows_loc cols_loc,
        CatGenerator.create (PyInt dim) (PyStr "laplace")
          (CatGenerator.LaplaceCreate rows cols rows_loc cols_loc)
        = LaplaceExtension.create dim rows cols rows_loc cols_loc).
Proof. by []. Qed.

(** C8 at the inputs where the code departs from it: [CatMatrix.create]
    passes [algorithm] where the generator expects [dim], so the generator
    looks the integer up in its dictionary and raises the unknown-algorithm
    error, whatever the name and the parameters are. *)
Theorem catmatrix_create_swapped (dim : Z) (name : string)
    (args : CatGenerator.create_args) :
  CatMatrix.create (PyInt dim) (PyStr name) args
  = Err (UnknownAlgorithm (PyInt dim)).
Proof. by []. Qed.

(** ** C9: the unimodularity check of the wrapper *)

(** The constructor stores checked arrays only. *)
Lemma catmatrix_init_checked (matrix : ndarray) :
  CatMatrix.init matrix
  = if CatMatrix.is_cat matrix then Ok (CatMatrix.Make matrix (nrows matrix))
    else Err InvalidMatrix.
Proof. by rewrite /CatMatrix.init /CatMatrix.set_matrix; case: ifP. Qed.

(** [extend] stores whatever the generator returns. *)
Lemma catmatrix_extend_stores (self : CatMatrix.t) (algorithm : pyval)
    (args : CatGenerator.extend_args) (m : ndarray) :
  CatGenerator.extend algorithm (CatMatrix._matrix self) args = Ok m ->
  CatMatrix.extend self algorithm args = Ok (CatMatrix.Make m (CatMatrix._dim self)).
Proof. by rewrite /CatMatrix.extend => ->. Qed.

(** C9 at an input where the code departs from it: the wrapper of
    [[1, 1], [1, 2]] extended by the block algorithm with two off-diagonal
    items (four are needed) stores a 4 x 3 array, which [is_cat] rejects and
    the setter would refuse. *)
Theorem catmatrix_extend_unchecked :
  let m := NdArray 2 [:: [:: 1; 1]; [:: 1; 2]]%Z in
  let m' := NdArray 3 [:: [:: 2; 1; 5]; [:: 1; 1; 7]; [:: 0; 1; 1]; [:: 0; 1; 2]]%Z in
  [/\ CatMatrix.init m = Ok (CatMatrix.Make m 2),
      CatMatrix.extend (CatMatrix.Make m 2) (PyStr "block")
        (CatGenerator.BlockExtend [:: 1; 1]%Z [:: 5; 7]%Z false false)
      = Ok (CatMatrix.Make m' 2),
      CatMatrix.is_cat m' = false
    & CatMatrix.set_matrix m' = Err InvalidMatrix].
Proof. by []. Qed.

(** ** C10: the range of [mapping] *)

Lemma np_mod_range (size x : Z) : (1 <= size)%Z -> in_range size (CatMap.np_mod size x).
Proof.
move=> size1; rewrite /CatMap.np_mod /in_range.
have /Z.eqb_neq -> : size <> 0%Z by lia.
have [lo hi] := Z.mod_pos_bound x size ltac:(lia).
by apply/andP; split; [apply/Z.leb_le | apply/Z.ltb_lt].
Qed.






(** [mapping] returns an array as soon as the shapes fit. *)
Lemma mapping_ok (self : CatMatrix.t) (data : seq Z) (size : Z) :
  0 < CatMatrix._dim self -> CatMatrix._dim self %| seq.size data ->
  ncols (CatMatrix._matrix self) = CatMatrix._dim self ->
  is_ok (CatMap.mapping self data size).
Proof.
move=> dim_gt0 /dvdnP [w sz] nc; rewrite /CatMap.mapping /np_reshape_infer.
rewrite eqn0Ngt dim_gt0 sz modnMl /= mulnK // /np_reshape sz mulnC eqxx /=.
by rewrite /CatMap.matmul /= /nrows /= size_reshape size_nseq nc eqxx.
Qed.

(** ** The determinant of [sympy] and the determinant of MathComp *)

Section DetLink.

Import GRing.Theory.
Local Open Scope ring_scope.

Lemma sumz_big (F : nat -> Z) (s : seq nat) : sumz F s = \sum_(i <- s) F i.
Proof. by elim: s => [|i s IH]; rewrite ?big_nil // big_cons /= IH. Qed.

Lemma sumz_ord (F : nat -> Z) (n : nat) :
  sumz F (iota 0 n) = \sum_(i < n) F i.
Proof. by rewrite sumz_big -[n in iota 0 n]subn0 -/(index_iota 0 n) big_mkord. Qed.

Lemma signE (k : nat) : sign k = (-1) ^+ k :> Z.
Proof. by rewrite -signr_odd /sign; case: (odd k). Qed.

Lemma del_nil (A : Type) (k : nat) : del k [::] = [::] :> seq A.
Proof. by []. Qed.

Lemma del_cons (A : Type) (k : nat) (x : A) (s : seq A) :
  del k.+1 (x :: s) = x :: del k s.
Proof. by []. Qed.

Lemma nth_del (A : Type) (x0 : A) (k : nat) (s : seq A) (i : nat) :
  nth x0 (del k s) i = nth x0 s (bump k i).
Proof.
elim: s k i => [|x s IH] [|k] [|i]; rewrite ?del_nil ?nth_nil //.
- by rewrite /del /= drop0.
- by rewrite /del /= drop0.
- by rewrite del_cons bumpS /= IH.
Qed.

Lemma nth_map_del (k : nat) (s : seq (seq Z)) (i : nat) :
  nth [::] [seq del k r | r <- s] i = del k (nth [::] s i).
Proof.
case: (ltnP i (size s)) => [lt_i | ge_i]; first exact: nth_map.
by rewrite !nth_default ?size_map.
Qed.

Lemma mx_of_minor (n : nat) (a : seq (seq Z)) (i j : 'I_n.+1) :
  mx_of n n (minor_rows a i j) = row' i (col' j (mx_of n.+1 n.+1 a)).
Proof.
apply/matrixP => p q; rewrite !mxE /minor_rows.
by rewrite nth_map_del !nth_del.
Qed.

Lemma det_rowsS (n : nat) (m : seq (seq Z)) :
  det_rows n.+1 m
  = sumz (fun j => (nth 0 (nth [::] m 0) j
                    * (sign j * det_rows n (minor_rows m 0 j)))%Z) (iota 0 n.+1).
Proof. by []. Qed.

Lemma det_rowsE (n : nat) (a : seq (seq Z)) : det_rows n a = \det (mx_of n n a).
Proof.
elim: n a => [|n IH] a; first by rewrite det_mx00.
rewrite (expand_det_row _ ord0) det_rowsS sumz_ord.
apply: eq_bigr => j _; rewrite mxE /cofactor /= add0n.
by rewrite IH (mx_of_minor a ord0 j) signE.
Qed.

Lemma cofactor_rowsE (n : nat) (a : seq (seq Z)) (i j : 'I_n.+1) :
  cofactor_rows n.+1 a i j = cofactor (mx_of n.+1 n.+1 a) i j.
Proof. by rewrite /cofactor_rows /cofactor det_rowsE mx_of_minor signE. Qed.

(** Expansion of [det_rows] along any column. *)
Lemma det_rows_expand_col (n : nat) (a : seq (seq Z)) (c : nat) :
  (c < n.+1)%N ->
  det_rows n.+1 a
  = sumz (fun i => (nth 0 (nth [::] a i) c * cofactor_rows n.+1 a i c)%Z)
         (iota 0 n.+1).
Proof.
move=> lt_c; rewrite det_rowsE (expand_det_col _ (Ordinal lt_c)) sumz_ord.
by apply: eq_bigr => i _; rewrite mxE -cofactor_rowsE.
Qed.

End DetLink.

(** ** Facts on the array operations *)

Lemma asarray_ok (s : seq Z) : all in_int64 s -> asarray s = Ok s.
Proof. by rewrite /asarray => ->. Qed.

Lemma asarray2_ok (a : ndarray) : array_int64 a -> asarray2 a = Ok a.
Proof. by rewrite /asarray2 => ->. Qed.

Lemma all_take (A : Type) (p : pred A) (k : nat) (s : seq A) :
  all p s -> all p (take k s).
Proof. by rewrite -{1}(cat_take_drop k s) all_cat => /andP []. Qed.

Lemma all_drop (A : Type) (p : pred A) (k : nat) (s : seq A) :
  all p s -> all p (drop k s).
Proof. by rewrite -{1}(cat_take_drop k s) all_cat => /andP []. Qed.

Lemma all_slice (A : Type) (p : pred A) (lo : nat) (hi : option nat) (s : seq A) :
  all p s -> all p (slice lo hi s).
Proof.
by move=> ok; apply: all_drop; case: hi => [h|] //; apply: all_take.
Qed.

Lemma slice2_int64 (a : ndarray) r0 r1 c0 c1 :
  array_int64 a -> array_int64 (slice2 a r0 r1 c0 c1).
Proof.
rewrite /array_int64 /= => ok; rewrite all_map.
apply/allP => r r_in /=; apply: all_slice.
by have /allP := all_slice r0 r1 ok; apply.
Qed.

Lemma reshape_col (l : seq Z) (k : nat) :
  size l = k -> reshape (nseq k 1) l = [seq [:: x] | x <- l].
Proof.
elim: k l => [|k IH] [|x l] //= [sz]; rewrite drop0 take0; congr (_ :: _).
exact: IH.
Qed.

Lemma reshape_row (l : seq Z) (w : nat) : size l = w -> reshape [:: w] l = [:: l].
Proof. by move=> <- /=; rewrite take_size. Qed.

Lemma take_zip (A B : Type) (k : nat) (s : seq A) (t : seq B) :
  take k (zip s t) = zip (take k s) (take k t).
Proof. by elim: k s t => [|k IH] [|x s] [|y t] //=; rewrite IH. Qed.

Lemma drop_zip (A B : Type) (k : nat) (s : seq A) (t : seq B) :
  drop k (zip s t) = zip (drop k s) (drop k t).
Proof.
elim: k s t => [|k IH] [|x s] [|y t] //=; first by case: (drop k t).
by case: (drop k s).
Qed.

(** The three blocks of one band of [LaplaceExtension.extend], side by
    side. *)
Lemma band_rows (c : nat) (t : seq Z) (X : seq (seq Z)) :
  [seq p.1 ++ p.2
  | p <- zip [seq p.1 ++ p.2 | p <- zip [seq take c r | r <- X] [seq [:: x] | x <- t]]
             [seq drop c r | r <- X]]
  = [seq ins c p.1 p.2 | p <- zip t X].
Proof.
elim: X t => [|r X IH] [|x t] //=.
by rewrite IH /ins -catA.
Qed.

Lemma size_ins (A : Type) (k : nat) (x : A) (s : seq A) :
  size (ins k x s) = (size s).+1.
Proof. by rewrite /ins size_cat /= addnS -size_cat cat_take_drop. Qed.

Lemma del_ins (A : Type) (k : nat) (x : A) (s : seq A) :
  k <= size s -> del k (ins k x s) = s.
Proof.
move=> le_k; rewrite /del /ins take_size_cat ?size_takel //.
rewrite drop_cat size_takel // ltnNge leqnSn /= subSn // subnn /= drop0.
exact: cat_take_drop.
Qed.

Lemma nth_ins (A : Type) (x0 : A) (k : nat) (x : A) (s : seq A) :
  k <= size s -> nth x0 (ins k x s) k = x.
Proof.
by move=> le_k; rewrite /ins nth_cat size_takel // ltnn subnn.
Qed.

Lemma size_del (A : Type) (k : nat) (s : seq A) :
  k < size s -> size (del k s) = (size s).-1.
Proof.
move=> lt_k; rewrite /del size_cat size_takel 1?ltnW // size_drop.
by ssr_lia.
Qed.

Lemma del_set_nth (x0 : Z) (k : nat) (x : Z) (s : seq Z) :
  k < size s -> del k (set_nth x0 s k x) = del k s.
Proof.
move=> lt_k.
have sz : size (set_nth x0 s k x) = size s.
  by rewrite size_set_nth; apply/maxn_idPr.
apply: (@eq_from_nth _ x0) => [|i _]; first by rewrite !size_del ?sz.
by rewrite !nth_del nth_set_nth /= eq_sym (negbTE (neq_bump k i)).
Qed.

Lemma map_del (A B : Type) (f : A -> B) (k : nat) (s : seq A) :
  [seq f x | x <- del k s] = del k [seq f x | x <- s].
Proof. by rewrite /del map_cat map_take map_drop. Qed.

Lemma minor_rows_set (m : seq (seq Z)) (r c : nat) (x : Z) (i : nat) :
  r < size m -> c < size (nth [::] m r) ->
  minor_rows (set_nth [::] m r (set_nth 0%Z (nth [::] m r) c x)) i c
  = minor_rows m i c.
Proof.
move=> lt_r lt_c; rewrite /minor_rows !map_del; congr (del i _).
apply: (@eq_from_nth _ [::]) => [|k].
  by rewrite !size_map size_set_nth (maxn_idPr lt_r).
rewrite size_map size_set_nth (maxn_idPr lt_r) => lt_k.
rewrite !(nth_map [::]) ?size_set_nth ?(maxn_idPr lt_r) // nth_set_nth /=.
by case: eqP => [-> | //]; rewrite del_set_nth.
Qed.

Lemma bindE (A B : Type) (a : A) (k : A -> result B) : bind (Ok a) k = k a.
Proof. by []. Qed.

Lemma np_reshape_col (l : seq Z) (k : nat) :
  size l = k -> np_reshape l k 1 = Ok (column l).
Proof. by move=> sz; rewrite /np_reshape muln1 sz eqxx reshape_col. Qed.

Lemma np_reshape_row (l : seq Z) (w : nat) :
  size l = w -> np_reshape l 1 w = Ok (NdArray w [:: l]).
Proof. by move=> sz; rewrite /np_reshape mul1n sz eqxx reshape_row. Qed.

Lemma np_reshape1_ok (l : seq Z) (k : nat) : size l = k -> np_reshape1 l k = Ok l.
Proof. by move=> sz; rewrite /np_reshape1 sz eqxx. Qed.

Lemma c_3 (a b d : ndarray) :
  nrows a = nrows b -> nrows a = nrows d ->
  c_ a [:: b; d]
  = Ok (NdArray (ncols a + ncols b + ncols d)
          [seq p.1 ++ p.2
          | p <- zip [seq p.1 ++ p.2 | p <- zip (rows a) (rows b)] (rows d)]).
Proof.
move=> ab ad; rewrite /c_ /= /hstack2 ab eqxx /= /nrows /= size_map size_zip.
by rewrite -/(nrows a) -/(nrows b) -/(nrows d) -ab minnn ad eqxx.
Qed.

Lemma r_3 (a b d : ndarray) :
  ncols a = ncols b -> ncols a = ncols d ->
  r_ a [:: b; d] = Ok (NdArray (ncols a) (rows a ++ rows b ++ rows d)).
Proof. by move=> ab ad; rewrite /r_ /= /vstack2 ab eqxx /= -ab ad eqxx catA. Qed.

Lemma mem_ins (A : eqType) (k : nat) (x : A) (s : seq A) (y : A) :
  y \in ins k x s = (y == x) || (y \in s).
Proof.
by rewrite /ins mem_cat in_cons orbCA -mem_cat cat_take_drop.
Qed.

Lemma mem_zip (A B : eqType) (s : seq A) (t : seq B) (x : A) (y : B) :
  (x, y) \in zip s t -> x \in s /\ y \in t.
Proof.
elim: s t => [|a s IH] [|b t] //=; rewrite !in_cons.
case/orP => [/eqP [-> ->] | /IH [xs yt]]; first by rewrite !eqxx.
by rewrite xs yt !orbT.
Qed.

Lemma sign_sq (k : nat) : (sign k * sign k = 1)%Z.
Proof. by rewrite /sign; case: (odd k). Qed.

Lemma cofactors_ok (a : ndarray) (r c : nat) :
  wf_array a -> square a -> c < ncols a ->
  LaplaceExtension.cofactors a r c = Ok (cofactor_sum a r c).
Proof.
move=> wfa sqa lt_c; rewrite /LaplaceExtension.cofactors /cofactor_sum.
set f := fun acc i => _; set F := fun i => _.
have step acc i : i < nrows a -> f (Ok acc) i = Ok (acc + F i)%Z.
  move=> lt_i; rewrite /f /F bindE; case: eqP => _ /=; first by rewrite Z.add_0_r.
  rewrite (getitem_nth [::]) // bindE (getitem_nth 0%Z) ?bindE.
    by have /allP /(_ _ (mem_nth [::] lt_i)) /eqP -> := wfa.
  by rewrite /sympy_cofactor sqa lt_i lt_c.
have gen k i acc :
    i + k <= nrows a -> foldl f (Ok acc) (iota i k) = Ok (acc + sumz F (iota i k))%Z.
  elim: k i acc => [|k IH] i acc le_m; first by rewrite /= Z.add_0_r.
  have lt_i : i < nrows a by apply: leq_trans le_m; rewrite addnS ltnS leq_addr.
  have -> : foldl f (Ok acc) (iota i k.+1) = foldl f (f (Ok acc) i) (iota i.+1 k).
    by [].
  by rewrite step // IH ?addSnnS //= Z.add_assoc.
by rewrite gen.
Qed.

(** ** C1: [LaplaceExtension.extend] keeps the determinant *)

Section LaplaceExtend.

Variables (M : ndarray) (row col : seq Z) (r c n : nat).

Hypothesis wfM : wf_array M.
Hypothesis nr : nrows M = n.
Hypothesis nc : ncols M = n.
Hypothesis M64 : array_int64 M.
Hypothesis le_r : r <= n.
Hypothesis le_c : c <= n.
Hypothesis sz_row : size row = n.
Hypothesis sz_col : size col = n.
Hypothesis row64 : all in_int64 row.
Hypothesis col64 : all in_int64 col.

Let cand := laplace_candidate M row col r c.

Let sz_rows : size (rows M) = n.
Proof. exact: nr. Qed.

Lemma laplace_slices :
  [/\ slice2 M 0 (Some r) 0 (Some c)
      = NdArray c [seq take c x | x <- take r (rows M)],
      slice2 M r None c None
      = NdArray (n - c) [seq drop c x | x <- drop r (rows M)],
      slice2 M 0 (Some r) c None
      = NdArray (n - c) [seq drop c x | x <- take r (rows M)]
    & slice2 M r None 0 (Some c)
      = NdArray c [seq take c x | x <- drop r (rows M)]].
Proof.
rewrite /slice2 /slice /slice_len !drop0 !subn0 nc (minn_idPl le_c).
by split=> //; congr NdArray; apply: eq_map => x; rewrite drop0.
Qed.

Lemma laplace_extend_eq :
  LaplaceExtension.extend M row col r c
  = (s <- LaplaceExtension.cofactors cand r c ;;
     setitem cand r c (sign (r + c) * (1 - s))%Z).
Proof.
have [E1 E2 E3 E4] := laplace_slices.
rewrite /LaplaceExtension.extend !asarray2_ok ?slice2_int64 // !bindE.
rewrite !asarray_ok ?all_slice // !bindE E1 E2 E3 E4 /slice !drop0.
rewrite np_reshape_col ?size_takel ?sz_row // bindE.
rewrite np_reshape1_ok; first by rewrite /nrows /= size_map !size_drop sz_row sz_rows.
rewrite bindE np_reshape_row ?size_takel ?sz_col // bindE.
rewrite np_reshape_row ?size_drop ?sz_col // bindE.
have sz_t := (size_map, size_takel, size_drop, sz_row, sz_rows).
rewrite c_3; try by rewrite /nrows /column /= ?sz_t.
rewrite bindE c_3 // bindE c_3; try by rewrite /nrows /column /= ?sz_t.
rewrite bindE r_3 //= !band_rows.
have -> : (take c col ++ [:: 0%Z]) ++ drop c col = ins c 0%Z col.
  by rewrite /ins -catA.
rewrite -!take_zip -!drop_zip !map_take !map_drop -/(ins r _ _).
suff -> : c + 1 + (n - c) = n.+1 by rewrite /cand /laplace_candidate nc.
by rewrite addn1 addSn subnKC.
Qed.

Lemma candidate_shape : nrows cand = n.+1 /\ ncols cand = n.+1.
Proof.
rewrite /nrows /cand /laplace_candidate /= size_ins size_map size_zip.
by rewrite sz_row sz_rows minnn nc.
Qed.

Lemma candidate_wf : wf_array cand.
Proof.
apply/allP => x; rewrite /cand /= mem_ins.
case/orP => [/eqP -> | /mapP [[a b] /mem_zip [_ b_in] ->]].
  by rewrite size_ins sz_col nc.
by rewrite size_ins eqSS; have /allP := wfM; apply.
Qed.

Lemma candidate_minor : minor_rows (rows cand) r c = rows M.
Proof.
rewrite /minor_rows /cand /= del_ins; first by rewrite size_map size_zip sz_row sz_rows minnn.
rewrite -map_comp -[RHS](@unzip2_zip _ _ row) ?sz_row ?sz_rows //.
apply/eq_in_map => -[x s] /mem_zip [_ s_in] /=; rewrite del_ins //.
by have /allP /(_ _ s_in) /eqP -> := wfM; rewrite nc.
Qed.

Hypothesis detM : det M = 1%Z.

Lemma candidate_set_det (x : Z) :
  x = (sign (r + c) * (1 - cofactor_sum cand r c))%Z ->
  det_rows n.+1
    (set_nth [::] (rows cand) r (set_nth 0%Z (nth [::] (rows cand) r) c x))
  = 1%Z.
Proof.
have [nrc ncc] := candidate_shape.
have lt_r : r < size (rows cand) by rewrite -/(nrows cand) nrc ltnS.
have lt_c : c < size (nth [::] (rows cand) r).
  have /allP /(_ _ (mem_nth [::] lt_r)) /eqP -> := candidate_wf.
  by rewrite ncc ltnS.
move=> x_def; rewrite (@det_rows_expand_col _ _ c) ?ltnS //.
rewrite sumz_big (bigD1_seq r) ?iota_uniq ?mem_iota ?add0n ?ltnS //=.
rewrite /cofactor_rows !minor_rows_set // candidate_minor.
rewrite nth_set_nth /= eqxx nth_set_nth /= eqxx.
move: detM; rewrite /det nr => ->.
rewrite (eq_bigr (fun i => (item cand i c * cofactor_rows n.+1 (rows cand) i c)%Z)).
  move=> i /negbTE ne_i; rewrite nth_set_nth /= ne_i.
  by rewrite /cofactor_rows minor_rows_set.
have -> : \big[GRing.add/0%Z]_(i <- iota 0 n.+1 | i != r)
             (item cand i c * cofactor_rows n.+1 (rows cand) i c)%Z
          = cofactor_sum cand r c.
  by rewrite /cofactor_sum nrc sumz_big big_mkcond.
rewrite !ZringE x_def; move: (cofactor_sum _ _ _) (sign_sq (r + c)) => S.
move: (sign _) => e e2.
have -> : (e * (1 - S) * (e * 1) = e * e * (1 - S))%Z by ring.
by rewrite e2; lia.
Qed.

End LaplaceExtend.

Lemma sign_pow (k : nat) : sign k = ((-1) ^ Z.of_nat k)%Z.
Proof.
rewrite /sign; elim: k => [|k IH] //.
rewrite Nat2Z.inj_succ Z.pow_succ_r; first exact: Nat2Z.is_nonneg.
by rewrite -IH /=; case: (odd k).
Qed.

Lemma setitem_ok (a : ndarray) (i j : nat) (x : Z) :
  i < nrows a -> j < ncols a -> in_int64 x ->
  setitem a i j x
  = Ok (NdArray (ncols a)
          (set_nth [::] (rows a) i (set_nth 0%Z (nth [::] (rows a) i) j x))).
Proof. by rewrite /setitem => -> -> ->. Qed.

Lemma setitem_overflow (a : ndarray) (i j : nat) (x : Z) :
  i < nrows a -> j < ncols a -> ~~ in_int64 x ->
  setitem a i j x = Err OverflowError.
Proof. by rewrite /setitem => -> -> /negbTE ->. Qed.

Lemma setitem_wf (a : ndarray) (i j : nat) (x : Z) :
  wf_array a -> i < nrows a -> j < ncols a ->
  wf_array (NdArray (ncols a)
              (set_nth [::] (rows a) i (set_nth 0%Z (nth [::] (rows a) i) j x))).
Proof.
move=> wfa lt_i lt_j; apply/(all_nthP [::]) => k /=.
rewrite size_set_nth (maxn_idPr lt_i) => lt_k; rewrite nth_set_nth /=.
have sz q : q < nrows a -> size (nth [::] (rows a) q) = ncols a.
  by move=> lt_q; have /allP /(_ _ (mem_nth [::] lt_q)) /eqP := wfa.
case: (k =P i) => [_ | _]; last by rewrite sz.
by rewrite size_set_nth sz //; apply/eqP/maxn_idPr.
Qed.

(** C1: for a square [matrix] of [n] rows with determinant 1, insertion
    indices [row_loc] and [col_loc] in [0, n], and [n] integers in [row] and in
    [col], let [S] be the sum of [cat[i][col_loc] * cofactor(i, col_loc)] over
    the rows [i != row_loc] of the candidate.  [cofactors] returns [S]; the
    new entry is [x = (-1) ^ (row_loc + col_loc) * (1 - S)]; when [x] fits the
    int64 array, [extend] returns an [(n+1)] x [(n+1)] array that has [x] in
    the new cell, the candidate everywhere else, and determinant exactly 1;
    when it does not, the operation raises [OverflowError]. *)
Theorem laplace_extend_det (matrix : ndarray) (row col : seq Z)
    (row_loc col_loc : nat) :
  let n := nrows matrix in
  let cand := laplace_candidate matrix row col row_loc col_loc in
  let S := cofactor_sum cand row_loc col_loc in
  let x := ((-1) ^ Z.of_nat (row_loc + col_loc) * (1 - S))%Z in
  wf_array matrix -> square matrix -> array_int64 matrix -> det matrix = 1%Z ->
  row_loc <= n -> col_loc <= n ->
  size row = n -> size col = n -> all in_int64 row -> all in_int64 col ->
  LaplaceExtension.cofactors cand row_loc col_loc = Ok S
  /\ if in_int64 x then
       exists m',
         [/\ LaplaceExtension.extend matrix row col row_loc col_loc = Ok m',
             nrows m' = n.+1 /\ ncols m' = n.+1,
             wf_array m',
             item m' row_loc col_loc = x
             /\ (forall i j, (i, j) != (row_loc, col_loc) ->
                 item m' i j = item cand i j)
           & det m' = 1%Z]
     else LaplaceExtension.extend matrix row col row_loc col_loc = Err OverflowError.
Proof.
move=> n cand S x wfM /eqP sqM M64 detM le_r le_c sz_row sz_col row64 col64.
have nc : ncols matrix = n by rewrite -sqM.
have [nrc ncc] := candidate_shape col row_loc col_loc erefl nc sz_row.
have wfc := candidate_wf row row_loc col_loc wfM nc sz_col.
have lt_r : row_loc < nrows cand by rewrite nrc ltnS.
have lt_c : col_loc < ncols cand by rewrite ncc ltnS.
have cofS : LaplaceExtension.cofactors cand row_loc col_loc = Ok S.
  by apply: cofactors_ok => //; rewrite /square nrc ncc.
split=> //.
rewrite (laplace_extend_eq erefl nc M64 le_r le_c sz_row sz_col row64 col64).
have x_def : x = (sign (row_loc + col_loc) * (1 - S))%Z by rewrite /x sign_pow.
rewrite cofS bindE -x_def.
case: ifP => [x64 | /negbT x64]; last by rewrite setitem_overflow.
rewrite setitem_ok //.
eexists; split; first by [].
- by rewrite /nrows /= size_set_nth (maxn_idPr lt_r).
- exact: setitem_wf.
- split; first by rewrite /item /= nth_set_nth /= eqxx nth_set_nth /= eqxx.
  move=> i j; rewrite xpair_eqE negb_and /item /= nth_set_nth /=.
  by case: (i =P row_loc) => //= ->; rewrite nth_set_nth /=; case: (j =P col_loc).
- rewrite /det /nrows /= size_set_nth (maxn_idPr lt_r) -/(nrows cand) nrc.
  exact: (candidate_set_det wfM erefl nc le_r le_c sz_row sz_col detM).
Qed.

Lemma laplace_extend_det_witness :
  let m := NdArray 2 [:: [:: 1; 1]; [:: 1; 2]]%Z in
  exists m',
    LaplaceExtension.extend m [:: 3; 4]%Z [:: 5; 6]%Z 1 1 = Ok m'
    /\ item m' 1 1 = 17%Z /\ det m' = 1%Z.
Proof.
move=> m.
have [] := @laplace_extend_det m [:: 3; 4]%Z [:: 5; 6]%Z 1 1
             isT isT isT erefl isT isT erefl erefl isT isT.
move=> _ [m' [ext _ _ [it _] dt]].
by exists m'; split=> //; split=> //; rewrite it.
Defined.

(** ** C2: the block extension keeps the determinant *)

Lemma nth_zip_cat (A B : seq (seq Z)) (i : nat) :
  size A = size B ->
  nth [::] [seq p.1 ++ p.2 | p <- zip A B] i = nth [::] A i ++ nth [::] B i.
Proof.
move=> sz; case: (ltnP i (size A)) => [lt_i | ge_i].
  by rewrite (nth_map ([::], [::])) ?size_zip -?sz ?minnn // nth_zip.
by rewrite !nth_default // -?sz // size_map size_zip -sz minnn.
Qed.

Lemma reshape_rows_size (l : seq Z) (k w : nat) (r : seq Z) :
  size l = k * w -> r \in reshape (nseq k w) l -> size r = w.
Proof.
move=> sz r_in.
have sh : shape (reshape (nseq k w) l) = nseq k w.
  by apply: reshapeKl; rewrite sumn_nseq sz mulnC.
have: size r \in shape (reshape (nseq k w) l) by apply: map_f.
by rewrite sh mem_nseq => /andP [_ /eqP].
Qed.

Lemma np_reshape_infer_ok (l : seq Z) (k w : nat) :
  0 < k -> size l = k * w ->
  np_reshape_infer l k = Ok (NdArray w (reshape (nseq k w) l)).
Proof.
move=> k_gt0 sz; rewrite /np_reshape_infer /np_reshape sz modnMr eqn0Ngt k_gt0 /=.
by rewrite mulKn // eqxx.
Qed.

Lemma reshape_zeros (k w : nat) :
  reshape (nseq k w) (nseq (k * w) 0%Z) = nseq k (nseq w 0%Z).
Proof.
elim: k => [|k IH] //=; rewrite mulSn nseqD take_size_cat ?size_nseq //.
by rewrite drop_size_cat ?size_nseq // IH.
Qed.

Lemma mx_of_zeros (k w : nat) : mx_of k w (nseq k (nseq w 0%Z)) = 0%R.
Proof.
apply/matrixP => i j; rewrite !mxE nth_nseq ltn_ord nth_nseq.
by case: ifP.
Qed.

Section BlockAssemble.

Variables (X Y : ndarray) (u v : seq Z) (k m : nat).

Hypothesis wfX : wf_array X.
Hypothesis nrX : nrows X = k.
Hypothesis ncX : ncols X = k.
Hypothesis wfY : wf_array Y.
Hypothesis nrY : nrows Y = m.
Hypothesis ncY : ncols Y = m.
Hypothesis k_gt0 : 0 < k.
Hypothesis m_gt0 : 0 < m.
Hypothesis sz_u : size u = k * m.
Hypothesis sz_v : size v = m * k.

Let U := reshape (nseq k m) u.
Let V := reshape (nseq m k) v.

Let assembled : ndarray :=
  NdArray (k + m)
    ([seq p.1 ++ p.2 | p <- zip (rows X) U] ++ [seq p.1 ++ p.2 | p <- zip V (rows Y)]).

Let sz_X : size (rows X) = k.
Proof. exact: nrX. Qed.

Let sz_Y : size (rows Y) = m.
Proof. exact: nrY. Qed.

Let sz_U : size U = k.
Proof. by rewrite /U size_reshape size_nseq. Qed.

Let sz_V : size V = m.
Proof. by rewrite /V size_reshape size_nseq. Qed.

Lemma block_assemble_eq :
  (m1 <- np_reshape_infer u (nrows X) ;;
   top <- c_ X [:: m1] ;;
   m2 <- np_reshape_infer v (nrows Y) ;;
   bottom <- c_ m2 [:: Y] ;;
   r_ top [:: bottom]) = Ok assembled.
Proof.
rewrite nrX nrY (np_reshape_infer_ok k_gt0 sz_u) bindE /c_ /= /hstack2 /nrows /=.
rewrite sz_X -/U sz_U eqxx /= (np_reshape_infer_ok m_gt0 sz_v) /=.
rewrite -/V sz_V sz_Y eqxx /= /r_ /= /vstack2 /= ncX ncY addnC eqxx /=.
by rewrite addnC.
Qed.

Lemma assembled_shape : nrows assembled = k + m /\ ncols assembled = k + m.
Proof.
by rewrite /nrows /= size_cat !size_map !size_zip sz_X sz_U sz_V sz_Y !minnn.
Qed.

Let row_size (A : ndarray) (r : seq Z) : wf_array A -> r \in rows A -> size r = ncols A.
Proof. by move=> /allP wfA /wfA /eqP. Qed.

Lemma assembled_wf : wf_array assembled.
Proof.
apply/allP => r; rewrite /= mem_cat => /orP [] /mapP [[a b] /mem_zip [a_in b_in] ->].
  by rewrite size_cat (row_size wfX a_in) (reshape_rows_size sz_u b_in) ncX.
by rewrite size_cat (row_size wfY b_in) (reshape_rows_size sz_v a_in) ncY addnC.
Qed.

Lemma assembled_int64 :
  array_int64 X -> array_int64 Y -> all in_int64 u -> all in_int64 v ->
  array_int64 assembled.
Proof.
move=> X64 Y64 u64 v64; rewrite /array_int64 /= all_cat.
have resh l sh r : all in_int64 l -> r \in reshape sh l -> all in_int64 r.
  elim: sh l => [|w sh IH] l l64 //=; rewrite in_cons.
  by case/orP => [/eqP -> | /IH]; [exact: all_take | apply; exact: all_drop].
apply/andP; split; apply/allP => r /mapP [[a b] /mem_zip [a_in b_in] ->] /=.
  by rewrite all_cat (allP X64 _ a_in) (resh _ _ _ u64 b_in).
by rewrite all_cat (allP Y64 _ b_in) (resh _ _ _ v64 a_in).
Qed.

Lemma assembled_mx :
  mx_of (k + m) (k + m) (rows assembled)
  = block_mx (mx_of k k (rows X)) (mx_of k m U) (mx_of m k V) (mx_of m m (rows Y)).
Proof.
have szX i : i < k -> size (nth [::] (rows X) i) = k.
  by move=> lt_i; rewrite (row_size wfX) ?mem_nth ?sz_X.
have szV i : i < m -> size (nth [::] V i) = k.
  by move=> lt_i; rewrite (reshape_rows_size sz_v (r:=nth [::] V i)) ?mem_nth ?sz_V.
apply/matrixP => i j; rewrite mxE /= nth_cat size_map size_zip sz_X sz_U minnn.
case: (split_ordP i) => i' ->; case: (split_ordP j) => j' -> /=;
  rewrite ?block_mxEul ?block_mxEur ?block_mxEdl ?block_mxEdr mxE.
- by rewrite nth_zip_cat ?sz_X ?sz_U // nth_cat szX // ltn_ord.
- by rewrite nth_zip_cat ?sz_X ?sz_U // nth_cat szX // ltnNge leq_addr /= addKn.
- by rewrite addKn nth_zip_cat ?sz_V ?sz_Y // nth_cat szV // ltn_ord.
- by rewrite addKn nth_zip_cat ?sz_V ?sz_Y // nth_cat szV // ltnNge leq_addr /= addKn.
Qed.

Lemma assembled_det_upper :
  v = nseq (m * k) 0%Z ->
  det assembled = (det X * det Y)%Z.
Proof.
move=> v0; have [nra _] := assembled_shape.
rewrite /det nra nrX nrY !det_rowsE assembled_mx /V v0 reshape_zeros mx_of_zeros.
by rewrite det_ublock.
Qed.

Lemma assembled_det_lower :
  u = nseq (k * m) 0%Z ->
  det assembled = (det X * det Y)%Z.
Proof.
move=> u0; have [nra _] := assembled_shape.
rewrite /det nra nrX nrY !det_rowsE assembled_mx /U u0 reshape_zeros mx_of_zeros.
by rewrite det_lblock.
Qed.

(** One coupling block is zero: the assembled array is unimodular. *)
Lemma block_assemble_unimodular :
  array_int64 X -> array_int64 Y -> all in_int64 u -> all in_int64 v ->
  det X = 1%Z -> det Y = 1%Z ->
  u = nseq (k * m) 0%Z \/ v = nseq (m * k) 0%Z ->
  exists2 a,
    (m1 <- np_reshape_infer u (nrows X) ;;
     top <- c_ X [:: m1] ;;
     m2 <- np_reshape_infer v (nrows Y) ;;
     bottom <- c_ m2 [:: Y] ;;
     r_ top [:: bottom]) = Ok a
    & unimodular (k + m) a.
Proof.
move=> X64 Y64 u64 v64 detX detY zero; exists assembled.
  exact: block_assemble_eq.
have [nra nca] := assembled_shape.
rewrite /unimodular assembled_wf nra nca !eqxx assembled_int64 //=.
by case: zero => [/assembled_det_lower | /assembled_det_upper] ->; rewrite detX detY.
Qed.

End BlockAssemble.

Lemma det_rows2 (a b c d : Z) :
  det_rows 2 [:: [:: a; b]; [:: c; d]] = (a * d - b * c)%Z.
Proof. by rewrite /= /minor_rows /= /del /= /sign /=; ring. Qed.

Lemma add64_mul64 (p q : Z) : add64 (mul64 p q) 1 = wrap64 (p * q + 1).
Proof.
rewrite /add64 /mul64 /wrap64; congr (_ - _)%Z.
have -> a : (a - 2 ^ 63 + 1 + 2 ^ 63 = a + 1)%Z by lia.
rewrite Zplus_mod_idemp_l; congr (_ mod _)%Z; lia.
Qed.

(** The diagonal-block rule gives a unimodular block exactly when no carry is
    lost. *)
Lemma diagonal_cat_matrix_det (p q : Z) :
  (det (BlockExtension._diagonal_cat_matrix p q) == 1%Z) = block_ok p q.
Proof.
rewrite /BlockExtension._diagonal_cat_matrix /block_ok.
case: Z.eqb_spec => [_ | ne0] //.
rewrite -[det _]/(det_rows 2 [:: [:: _; p]; [:: q; 1%Z]]) det_rows2 add64_mul64 /=.
apply/eqP/idP => [E | ok]; last by rewrite wrap64_id //; lia.
have <- : wrap64 (p * q + 1) = (p * q + 1)%Z by lia.
exact: wrap64_in.
Qed.

Lemma diagonal_cat_matrix_unimodular (p q : Z) :
  in_int64 p -> in_int64 q -> block_ok p q ->
  unimodular 2 (BlockExtension._diagonal_cat_matrix p q).
Proof.
move=> p64 q64 ok; rewrite /unimodular diagonal_cat_matrix_det ok.
rewrite /BlockExtension._diagonal_cat_matrix; case: ifP => _ //=.
by rewrite /array_int64 /= p64 q64 /add64 wrap64_in.
Qed.

(** [BlockExtension.extend] on a unimodular matrix and the int64 scalars of
    an array, under the four swap settings. *)
Lemma block_extend_unimodular (matrix : ndarray) (n : nat) (p q : Z)
    (diag off_diag : seq Z) (swap_diag swap_off_diag : bool) :
  unimodular n matrix -> 0 < n ->
  in_int64 p -> in_int64 q -> block_ok p q ->
  size off_diag = 2 * n -> all in_int64 off_diag ->
  exists2 m',
    BlockExtension.extend Int64s matrix (p :: q :: diag) off_diag
      swap_diag swap_off_diag = Ok m'
    & unimodular (n + 2) m'.
Proof.
case/and5P => wfM /eqP nrM /eqP ncM M64 /eqP detM n_gt0 p64 q64 ok sz_off off64.
have /and5P [wfB /eqP nrB /eqP ncB B64 /eqP detB] :=
  diagonal_cat_matrix_unimodular p64 q64 ok.
rewrite /BlockExtension.extend /getitem /= ?bindE asarray2_ok // ?bindE.
rewrite asarray_ok // ?bindE /BlockExtension.zeros_like.
have z64 : all in_int64 (nseq (size off_diag) 0%Z) by rewrite all_nseq orbT.
have sz_z : size (nseq (size off_diag) 0%Z) = 2 * n by rewrite size_nseq.
have sz_off' : size off_diag = n * 2 by rewrite mulnC.
have sz_z' : size (nseq (size off_diag) 0%Z) = n * 2 by rewrite size_nseq.
case: swap_diag; case: swap_off_diag; rewrite /= 1?[n + 2]addnC.
- rewrite addnC.
  apply: (block_assemble_unimodular wfM nrM ncM wfB nrB ncB n_gt0 _ sz_z' sz_off) => //.
  by left; rewrite sz_off'.
- rewrite addnC.
  apply: (block_assemble_unimodular wfM nrM ncM wfB nrB ncB n_gt0 _ sz_off' sz_z) => //.
  by right; rewrite sz_off.
- apply: (block_assemble_unimodular wfB nrB ncB wfM nrM ncM _ n_gt0 sz_z sz_off') => //.
  by left; rewrite sz_off.
- apply: (block_assemble_unimodular wfB nrB ncB wfM nrM ncM _ n_gt0 sz_off sz_z') => //.
  by right; rewrite sz_off'.
Qed.


Lemma block_take_ok (data_iter : seq Z) (count : nat) :
  all in_int64 data_iter ->
  BlockExtension.take data_iter count
  = Ok (take count data_iter, drop count data_iter).
Proof. by move=> ok; rewrite /BlockExtension.take asarray_ok // all_take. Qed.

Lemma block_loop_cons (c : Z) (swap_diag swap_off_diag : seq bool)
    (st : ndarray * seq Z * seq Z) (i : nat) (idx : seq nat) :
  BlockExtension.loop c swap_diag swap_off_diag st (i :: idx)
  = (st' <- BlockExtension.step c swap_diag swap_off_diag st i ;;
     BlockExtension.loop c swap_diag swap_off_diag st' idx).
Proof.
rewrite /BlockExtension.loop /= /bind.
case: (BlockExtension.step _ _ _ _ _) => [st' | e] //.
by elim: idx.
Qed.

Lemma off_diag_needS (i k c : nat) :
  off_diag_need i k.+1 c = 2 * (2 * i + c) + off_diag_need i.+1 k c.
Proof. by []. Qed.

Lemma off_diag_need0 (k c : nat) :
  0 < c -> off_diag_need 0 k c = 2 * k * (k + c - 1).
Proof.
case: c => [|c] // _; rewrite /off_diag_need; elim: k => [|k IH] //.
have -> : iota 0 k.+1 = iota 0 k ++ [:: k] by rewrite -[k.+1]addn1 iotaD.
rewrite map_cat sumn_cat IH /= addn0.
rewrite -!plusE -!minusE -!multE; nia.
Qed.

(** The loop of [create] keeps the matrix unimodular and grows it by two
    dimensions a turn. *)
Lemma block_loop_unimodular (c : nat) (swap_diag swap_off_diag : seq bool)
    (k i : nat) (cat : ndarray) (d o : seq Z) :
  0 < c -> unimodular (2 * i + c) cat ->
  all in_int64 d -> all in_int64 o -> pairs_ok d ->
  2 * k <= size d -> off_diag_need i k c <= size o ->
  i + k <= size swap_diag -> i + k <= size swap_off_diag ->
  exists st',
    BlockExtension.loop (Z.of_nat c) swap_diag swap_off_diag (cat, d, o) (iota i k)
    = Ok st'
    /\ unimodular (2 * (i + k) + c) st'.1.1.
Proof.
move=> c_gt0; elim: k i cat d o => [|k IH] i cat d o uni d64 o64 pok szd szo szsd szso.
  by exists (cat, d, o); rewrite addn0.
case: d d64 pok szd => [|p [|q d]]; [by rewrite mulnS | by rewrite mulnS | ].
move=> /= /and3P [p64 q64 d64] /andP [ok pok] szd.
rewrite block_loop_cons /BlockExtension.step.
set count := Z.to_nat _.
have count_eq : count = 2 * (2 * i + c) by rewrite /count; ssr_lia.
move: szo; rewrite off_diag_needS -count_eq => szo.
rewrite !block_take_ok /= ?p64 ?q64 // ?bindE.
have lt_i1 : i < size swap_diag by apply: leq_trans szsd; rewrite addnS ltnS leq_addr.
have lt_i2 : i < size swap_off_diag.
  by apply: leq_trans szso; rewrite addnS ltnS leq_addr.
rewrite (getitem_nth false) // bindE (getitem_nth false) // bindE drop0.
have n_gt0 : 0 < 2 * i + c by rewrite addn_gt0 c_gt0 orbT.
have sz_tk : size (take count o) = 2 * (2 * i + c).
  by rewrite size_takel -?count_eq //; apply: leq_trans szo; rewrite leq_addr.
have [m' -> uni'] :=
  block_extend_unimodular (take 0 d) (nth false swap_diag i) (nth false swap_off_diag i)
    uni n_gt0 p64 q64 ok sz_tk (all_take count o64).
rewrite !bindE.
have uni'' : unimodular (2 * i.+1 + c) m' by rewrite mulnS -addnA addnC.
have [] := IH i.+1 m' d (drop count o) uni'' d64 (all_drop count o64) pok.
- by move: szd; rewrite mulnS /= !ltnS.
- by rewrite size_drop leq_subRL // (leq_trans _ szo) // leq_addr.
- by rewrite addSnnS.
- by rewrite addSnnS.
by move=> st' [-> uni3]; exists st'; rewrite addnS -addSn.
Qed.

Lemma sq_half_odd (b : Z) : ((2 * b + 1) ^ 2 / 2 = 2 * b * b + 2 * b)%Z.
Proof.
rewrite Z.pow_2_r.
have -> : ((2 * b + 1) * (2 * b + 1) = 1 + (2 * b * b + 2 * b) * 2)%Z by ring.
by rewrite Z.div_add.
Qed.

Lemma sq_half_even (b : Z) : ((2 * b) ^ 2 / 2 = 2 * b * b)%Z.
Proof.
rewrite Z.pow_2_r.
have -> : (2 * b * (2 * b) = 2 * b * b * 2)%Z by ring.
by rewrite Z.div_mul.
Qed.

Lemma ones_unimodular : unimodular 1 (NdArray 1 [:: [:: 1%Z]]).
Proof. by []. Qed.

(** [create] with chunks of the sizes [random] draws, int64 items and
    diagonal pairs that lose no carry. *)
Lemma block_create_unimodular (dim : Z) (diag off_diag : seq Z)
    (swap_diag swap_off_diag : seq bool) :
  (2 <= dim)%Z ->
  Z.of_nat (size diag) = BlockExtension.diag_size dim ->
  Z.of_nat (size off_diag) = BlockExtension.off_diag_size dim ->
  Z.of_nat (size swap_diag) = BlockExtension.swap_size dim ->
  Z.of_nat (size swap_off_diag) = BlockExtension.swap_size dim ->
  all in_int64 diag -> all in_int64 off_diag -> pairs_ok diag ->
  exists2 m,
    BlockExtension.create dim diag off_diag swap_diag swap_off_diag = Ok m
    & unimodular (Z.to_nat dim) m.
Proof.
rewrite /BlockExtension.off_diag_size /BlockExtension.diag_size.
rewrite /BlockExtension.swap_size => dim2 sz_d sz_o sz_sd sz_so d64 o64 pok.
rewrite /BlockExtension.create check_parameters_eq //.
have -> : ((dim - 1) / 2 * 2 + dim ^ 2 / 2
           =? Z.of_nat (size diag + size off_diag + size swap_diag
                        + size swap_off_diag))%Z.
  apply/Z.eqb_eq; rewrite -!plusE !Nat2Z.inj_add sz_d sz_o sz_sd sz_so.
  by move: (dim ^ 2 / 2)%Z => x; lia.
rewrite bindE.
have [[b dim_eq] | [b dim_eq]] := Z.Even_or_Odd dim; subst dim.
- (* even: the seed is the diagonal block of the first two items *)
  move: sz_d sz_o sz_sd sz_so; rewrite sq_half_even.
  have -> : ((2 * b - 1) / 2 = b - 1)%Z by Z.div_mod_to_equations; lia.
  have -> : (2 * b / 2 * 2 = 2 * b)%Z by Z.div_mod_to_equations; lia.
  have [n b_eq] : exists n, b = Z.of_nat n.+1.
    by exists (Z.to_nat b).-1; lia.
  subst b => sz_d sz_o sz_sd sz_so.
  have even_dim : Z.even (2 * Z.of_nat n.+1) by rewrite Z.even_mul.
  have {}sz_d : size diag = n.*2.+2 by rewrite -addnn; ssr_lia.
  have {}sz_o : 2 * n * (n + 2 - 1) <= size off_diag.
    by apply/leP; rewrite -!plusE -!minusE -!multE; nia.
  have {}sz_sd : 0 + n <= size swap_diag by ssr_lia.
  have {}sz_so : 0 + n <= size swap_off_diag by ssr_lia.
  case: diag d64 pok sz_d => [|p [|q rest]] //= /and3P [p64 q64 r64] /andP [ok pok].
  move=> [sz_d].
  rewrite (block_seed_even rest even_dim p64 q64).
  rewrite bindE /= seed_size_even //.
  have -> : Z.to_nat (Z.of_nat n.+1 - 1) = n by lia.
  have uni0 : unimodular (2 * 0 + 2) (BlockExtension._diagonal_cat_matrix p q).
    exact: diagonal_cat_matrix_unimodular.
  have [] := @block_loop_unimodular 2 swap_diag swap_off_diag n 0
               _ rest off_diag isT uni0 r64 o64 pok _ _ sz_sd sz_so.
  + by rewrite sz_d mul2n.
  + by rewrite off_diag_need0.
  case=> [[cat' d'] o'] [-> uni] /=; exists cat' => //.
  suff <- : 2 * (0 + n) + 2 = Z.to_nat (2 * Z.of_nat n.+1) by [].
  by ssr_lia.
- (* odd: the seed is [[1]] *)
  move: sz_d sz_o sz_sd sz_so; rewrite sq_half_odd.
  have -> : ((2 * b + 1 - 1) / 2 = b)%Z by Z.div_mod_to_equations; lia.
  have -> : ((2 * b + 1) / 2 * 2 = 2 * b)%Z by Z.div_mod_to_equations; lia.
  have [n b_eq] : exists n, b = Z.of_nat n by exists (Z.to_nat b); lia.
  subst b => sz_d sz_o sz_sd sz_so.
  have odd_dim : Z.odd (2 * Z.of_nat n + 1) by rewrite Z.odd_add Z.odd_mul.
  have {}sz_d : 2 * n <= size diag by ssr_lia.
  have {}sz_o : 2 * n * (n + 1 - 1) <= size off_diag.
    by apply/leP; rewrite -!plusE -!minusE -!multE; nia.
  have {}sz_sd : 0 + n <= size swap_diag by ssr_lia.
  have {}sz_so : 0 + n <= size swap_off_diag by ssr_lia.
  rewrite (block_seed_odd diag odd_dim).
  rewrite bindE /= seed_size_odd //.
  rewrite Nat2Z.id.
  have [] := @block_loop_unimodular 1 swap_diag swap_off_diag n 0
               _ diag off_diag isT ones_unimodular d64 o64 pok sz_d _ sz_sd sz_so.
    by rewrite off_diag_need0.
  case=> [[cat' d'] o'] [-> uni] /=; exists cat' => //.
  suff <- : 2 * (0 + n) + 1 = Z.to_nat (2 * Z.of_nat n + 1) by [].
  by ssr_lia.
Qed.

(** On a list of Python integers the rule computes [p * q + 1] exactly and
    the conversion to int64 raises when it does not fit: the pair
    ([2^32], [2^31]) that [create] turns into a block is refused by [extend]
    called with a list. *)
Lemma block_extend_list_overflow :
  BlockExtension.extend PyInts (NdArray 1 [:: [:: 1%Z]]) [:: 2 ^ 32; 2 ^ 31]%Z
    [:: 5; 7]%Z false false = Err OverflowError.
Proof. by []. Qed.

(** C2 at an input where the code departs from it: for [dim = 2] and
    [diag = [2^32, 2^31]], parameters of the required lengths, [take] hands
    [p] and [q] over as [numpy.int64] scalars, the product [p * q = 2^63]
    wraps to [-2^63], and [create] returns the matrix
    [[-2^63 + 1, 2^32], [2^31, 1]], whose determinant is [1 - 2^64] and not
    1. *)
Theorem block_create_lost_carry :
  let m := NdArray 2 [:: [:: - 2 ^ 63 + 1; 2 ^ 32]; [:: 2 ^ 31; 1]]%Z in
  [/\ BlockExtension.check_parameters 2 [:: 2 ^ 32; 2 ^ 31]%Z [::] [::] [::] = Ok 0%Z,
      BlockExtension.create 2 [:: 2 ^ 32; 2 ^ 31]%Z [::] [::] [::] = Ok m,
      det m = (1 - 2 ^ 64)%Z
    & det m <> 1%Z].
Proof. by split. Qed.

(** ** C4: the cat map on the grid *)

Lemma wrap64_congr (x y : Z) :
  (x mod 2 ^ 64 = y mod 2 ^ 64)%Z -> wrap64 x = wrap64 y.
Proof.
by move=> E; rewrite /wrap64 Zplus_mod E -Zplus_mod.
Qed.

Lemma wrap64_add (a b : Z) : add64 (wrap64 a) (wrap64 b) = wrap64 (a + b).
Proof.
by apply: wrap64_congr; rewrite Zplus_mod !wrap64_eqm -Zplus_mod.
Qed.

Lemma foldl_add64 (l : seq (Z * Z)) (a : Z) :
  foldl add64 (wrap64 a) [seq mul64 p.1 p.2 | p <- l]
  = wrap64 (a + foldr (fun p acc => (p.1 * p.2 + acc)%Z) 0%Z l).
Proof.
elim: l a => [|[p q] l IH] a /=; first by rewrite Z.add_0_r.
by rewrite /mul64 wrap64_add IH Z.add_assoc.
Qed.

Lemma dot64_wrap (r x : seq Z) : CatMap.dot64 r x = wrap64 (dot r x).
Proof. exact: (foldl_add64 (zip r x) 0). Qed.

Lemma dot_sum (d : nat) (r x : seq Z) :
  size r = d -> size x = d ->
  dot r x = (\sum_(j < d) nth 0%Z r j * nth 0%Z x j)%R.
Proof.
elim: d r x => [|d IH] [|a r] [|b x] //=; first by rewrite big_ord0.
by move=> [sz_r] [sz_x]; rewrite big_ord_recl /= -IH.
Qed.

Lemma mulmx_col_of (d : nat) (M : seq (seq Z)) (x : seq Z) (i : 'I_d) :
  size (nth [::] M i) = d -> size x = d ->
  ((mx_of d d M *m col_of d x) i ord0)%R = dot (nth [::] M i) x.
Proof.
move=> sz_r sz_x; rewrite mxE (dot_sum sz_r sz_x).
by apply: eq_bigr => j _; rewrite !mxE.
Qed.

Section ModInjective.

Local Open Scope ring_scope.

Variables (d : nat) (A : 'M[Z]_d) (s : Z).

Hypothesis detA : \det A = 1.
Hypothesis s_gt0 : (0 < s)%Z.

(** A vector killed by [A] modulo [s] is zero modulo [s]. *)
Lemma unimodular_kernel_mod (w : 'cV[Z]_d) :
  (forall i, ((A *m w) i ord0 mod s = 0)%Z) ->
  forall i, exists z, w i ord0 = (s * z)%Z.
Proof.
move=> Aw0 i.
pose K : 'cV[Z]_d := \col_j ((A *m w) j ord0 / s)%Z.
have AwK : A *m w = s *: K.
  apply/matrixP => j k; rewrite !mxE (ord1 k) -/((A *m w) j ord0).
  rewrite [RHS]ZmulE; have := Z_div_mod_eq_full ((A *m w) j ord0) s.
  by rewrite (Aw0 j) Z.add_0_r mxE.
exists ((\adj A *m K) i ord0).
have : w = s *: (\adj A *m K).
  by rewrite scalemxAr -AwK mulmxA mul_adj_mx detA mul1mx.
by move=> {1}->; rewrite mxE.
Qed.

Lemma unimodular_mod_inj (x y : 'cV[Z]_d) :
  (forall i, (0 <= x i ord0 < s)%Z) -> (forall i, (0 <= y i ord0 < s)%Z) ->
  (forall i, ((A *m x) i ord0 mod s = (A *m y) i ord0 mod s)%Z) ->
  x = y.
Proof.
move=> x_rng y_rng E; apply/matrixP => i k; rewrite (ord1 k).
have [|z] := @unimodular_kernel_mod (x - y) _ i.
  move=> j; rewrite mulmxBr mxE [X in (_ + X)%R]mxE ZaddE ZoppE.
  by rewrite Z.add_opp_r Zminus_mod E Z.sub_diag.
rewrite !mxE ZaddE ZoppE -/(x i ord0) -/(y i ord0).
have:= x_rng i; have := y_rng i.
move: (x i ord0) (y i ord0) => a b.
rewrite -[a]/(a : Z) -[b]/(b : Z) => b_rng a_rng ab.
have [lo hi] : (s * -1 < s * z < s * 1)%Z by lia.
have z0 : z = 0%Z.
  have lo' := proj2 (Z.mul_lt_mono_pos_l s (-1) z s_gt0) lo.
  have hi' := proj2 (Z.mul_lt_mono_pos_l s z 1 s_gt0) hi.
  by lia.
by move: ab; rewrite z0; lia.
Qed.

End ModInjective.

Lemma col_column (x : seq Z) : CatMap.col 0 (column x) = x.
Proof. by rewrite /CatMap.col /column /= -map_comp map_id_in. Qed.

(** [mapping] on a single point. *)
Lemma mapping_point (self : CatMatrix.t) (x : seq Z) (size : Z) :
  0 < CatMatrix._dim self -> seq.size x = CatMatrix._dim self ->
  ncols (CatMatrix._matrix self) = CatMatrix._dim self ->
  CatMap.mapping self x size
  = Ok (column (map_point (CatMatrix._matrix self) size x)).
Proof.
move=> d_gt0 sz_x nc; rewrite /CatMap.mapping.
rewrite (@np_reshape_infer_ok _ _ 1) ?muln1 // bindE reshape_col //.
rewrite /CatMap.matmul nc /nrows /= size_map sz_x eqxx bindE /=.
rewrite -/(column x) col_column /column /map_point -!map_comp.
by congr (Ok (NdArray _ _)).
Qed.

Lemma Ok_inj (A : Type) (a b : A) : Ok a = Ok b -> a = b.
Proof. by case. Qed.

Lemma column_inj : injective column.
Proof.
move=> x y [] E; apply: (@eq_from_nth _ 0%Z) => [|i lt_i].
  by rewrite -(size_map (fun v => [:: v]) x) E size_map.
have := congr1 (fun s => nth 0%Z (nth [::] s i) 0) E.
rewrite (nth_map 0%Z) // (nth_map 0%Z) //.
by rewrite -(size_map (fun v => [:: v]) y) -E size_map.
Qed.

Section MappingInjective.

Variables (self : CatMatrix.t) (size : Z).

Let M := CatMatrix._matrix self.
Let d := CatMatrix._dim self.

Hypothesis wfM : wf_array M.
Hypothesis nrM : nrows M = d.
Hypothesis ncM : ncols M = d.
Hypothesis detM : det M = 1%Z.
Hypothesis size1 : (1 <= size)%Z.

Lemma map_point_mulmx (x : seq Z) (i : 'I_d) :
  in_grid d size x -> no_overflow M x ->
  nth 0%Z (map_point M size x) i
  = (((mx_of d d (rows M) *m col_of d x)%R i ord0) mod size)%Z.
Proof.
case/andP => /eqP sz_x _ /allP no_ov.
have lt_i : i < seq.size (rows M) by rewrite -/(nrows M) nrM.
have r_in := mem_nth [::] lt_i.
rewrite /map_point (nth_map [::]) // dot64_wrap wrap64_id ?no_ov //.
rewrite /CatMap.np_mod; have /Z.eqb_neq -> : size <> 0%Z by lia.
rewrite mulmx_col_of //.
by have /allP /(_ _ r_in) /eqP -> := wfM.
Qed.

Lemma map_point_inj (x y : seq Z) :
  in_grid d size x -> in_grid d size y ->
  no_overflow M x -> no_overflow M y ->
  map_point M size x = map_point M size y -> x = y.
Proof.
move=> gx gy ox oy E.
have [/eqP sz_x /allP x_rng] := andP gx; have [/eqP sz_y /allP y_rng] := andP gy.
have detA : (\det (mx_of d d (rows M)) = 1)%R by rewrite -det_rowsE -nrM.
have rng z (i : 'I_d) :
    seq.size z = d -> {in z, forall v, in_range size v} ->
    (0 <= col_of d z i ord0 < size)%Z.
  move=> sz_z z_rng; rewrite mxE.
  have /z_rng /andP [/Z.leb_le lo /Z.ltb_lt hi] : nth 0%Z z i \in z.
    by rewrite mem_nth // sz_z.
  by [].
have s_gt0 : (0 < size)%Z by lia.
have Exy : col_of d x = col_of d y.
  apply: (@unimodular_mod_inj d _ size detA s_gt0) => i; try exact: rng.
  by rewrite -!map_point_mulmx // E.
apply: (@eq_from_nth _ 0%Z) => [|i]; first by rewrite sz_x.
rewrite sz_x => lt_i.
by have := congr1 (fun v : 'cV[Z]_d => v (Ordinal lt_i) ord0) Exy; rewrite !mxE.
Qed.

End MappingInjective.

(** ** C3: the period *)

Lemma cube_coord_cols (d : nat) (size : Z) :
  0 < d -> CatMap.cube_coord d size = Ok (of_cols d (grid d size)).
Proof. by rewrite /CatMap.cube_coord; case: d. Qed.

Lemma size_points (d : nat) (vals : seq Z) (p : seq Z) :
  p \in CatMap.points d vals -> seq.size p = d.
Proof.
elim: d p => [|d IH] p /=; first by rewrite inE => /eqP ->.
by case/allpairsP => -[v q] /= [_ /IH sz ->] /=; rewrite sz.
Qed.

Section OfCols.

Variables (d : nat) (M : ndarray) (size : Z).

Hypothesis d_gt0 : 0 < d.
Hypothesis nrM : nrows M = d.
Hypothesis ncM : ncols M = d.

Let sized (pts : seq (seq Z)) := all (fun p => seq.size p == d) pts.

Lemma size_map_point (x : seq Z) : seq.size (map_point M size x) = d.
Proof. by rewrite /map_point size_map. Qed.

Lemma sized_map (f : seq Z -> seq Z) (pts : seq (seq Z)) :
  (forall x, seq.size (f x) = d) -> sized [seq f p | p <- pts].
Proof. by move=> sz; apply/allP => _ /mapP [p _ ->]; rewrite sz. Qed.

Lemma of_cols_wf (pts : seq (seq Z)) : wf_array (of_cols d pts).
Proof. by apply/allP => _ /mapP [k _ ->] /=; rewrite size_map. Qed.

Lemma col_of_cols (pts : seq (seq Z)) (j : nat) :
  sized pts -> j < seq.size pts ->
  CatMap.col j (of_cols d pts) = nth [::] pts j.
Proof.
move=> /allP sz lt_j; rewrite /CatMap.col /of_cols /= -map_comp.
have /sz /eqP sz_j := mem_nth [::] lt_j.
apply: (@eq_from_nth _ 0%Z) => [|k]; first by rewrite size_map size_iota sz_j.
rewrite size_map size_iota => lt_k.
by rewrite (nth_map 0) ?size_iota // nth_iota // add0n /= (nth_map [::]).
Qed.

Lemma flatten_of_cols (pts : seq (seq Z)) :
  np_reshape_infer (flatten (rows (of_cols d pts))) d = Ok (of_cols d pts).
Proof.
have sh : shape (rows (of_cols d pts)) = nseq d (seq.size pts).
  rewrite /shape /= -map_comp; apply: (@eq_from_nth _ 0) => [|k].
    by rewrite size_map size_iota size_nseq.
  rewrite size_map size_iota => lt_k.
  by rewrite (nth_map 0) ?size_iota // nth_nseq lt_k /= size_map.
rewrite (@np_reshape_infer_ok _ _ (seq.size pts)) //.
  by rewrite size_flatten sh sumn_nseq mulnC.
by rewrite -sh flattenK.
Qed.

(** [mapping] acts on every column of the array by [map_point]. *)
Lemma mapping_of_cols (self : CatMatrix.t) (pts : seq (seq Z)) :
  CatMatrix._matrix self = M -> CatMatrix._dim self = d -> sized pts ->
  CatMap.mapping self (flatten (rows (of_cols d pts))) size
  = Ok (of_cols d [seq map_point M size p | p <- pts]).
Proof.
move=> eM ed sz; rewrite /CatMap.mapping eM ed flatten_of_cols bindE.
have szM : seq.size (rows M) = d by [].
rewrite /CatMap.matmul ncM /nrows /= size_map size_iota eqxx bindE.
rewrite /of_cols /= size_map -map_comp; congr (Ok (NdArray _ _)).
apply: (@eq_from_nth _ [::]) => [|k]; first by rewrite !size_map size_iota szM.
rewrite size_map szM => lt_k.
rewrite (nth_map [::]) ?szM // (nth_map 0) ?size_iota // nth_iota // add0n /=.
rewrite -!map_comp.
apply: (@eq_from_nth _ 0%Z) => [|j]; first by rewrite !size_map size_iota.
rewrite size_map size_iota => lt_j.
rewrite (nth_map 0) ?size_iota // (nth_map [::]) //= nth_iota // add0n.
by rewrite -/(of_cols d pts) (col_of_cols sz lt_j) /map_point (nth_map [::]) ?szM.
Qed.

Lemma broadcast_same (res out : ndarray) :
  nrows res = nrows out -> ncols res = ncols out ->
  CatMap.broadcast res out = Ok res.
Proof.
by move=> nr nc; rewrite /CatMap.broadcast nr nc !eqxx /=; case: res nr nc => c r /= _ ->.
Qed.

Lemma of_cols_inj (pts pts' : seq (seq Z)) :
  sized pts -> sized pts' ->
  array_equal (of_cols d pts) (of_cols d pts') = (pts == pts').
Proof.
move=> /allP sz /allP sz'; apply/idP/eqP => [/andP [/= /eqP sz_eq /eqP E] | ->];
  last by rewrite /array_equal !eqxx.
apply: (@eq_from_nth _ [::]) => // j lt_j.
have lt_j' : j < seq.size pts' by rewrite -sz_eq.
have /sz /eqP sz_j := mem_nth [::] lt_j.
have /sz' /eqP sz_j' := mem_nth [::] lt_j'.
apply: (@eq_from_nth _ 0%Z) => [|k]; first by rewrite sz_j sz_j'.
rewrite sz_j => lt_k.
have := congr1 (fun s => nth 0%Z (nth [::] s k) j) E.
rewrite !(nth_map 0) ?size_iota // nth_iota // add0n.
by rewrite (nth_map [::]) // (nth_map [::]).
Qed.

End OfCols.

Lemma mem_arange (size v : Z) : (v \in CatMap.arange size) = in_range size v.
Proof.
rewrite /CatMap.arange /in_range; apply/mapP/andP => [[i] | [/Z.leb_le lo /Z.ltb_lt hi]].
  rewrite mem_iota add0n => /andP [_ /ltP lt_i] ->.
  by split; [apply/Z.leb_le | apply/Z.ltb_lt]; lia.
exists (Z.to_nat v); last by rewrite Z2Nat.id.
by rewrite mem_iota add0n /=; apply/ltP; lia.
Qed.

Lemma mem_points (d : nat) (vals : seq Z) (x : seq Z) :
  (x \in CatMap.points d vals) = (seq.size x == d) && all (mem vals) x.
Proof.
elim: d x => [|d IH] [|v x] //=.
- by apply/allpairsP => -[[a b] /= [_ _]].
- apply/allpairsP/andP => [[[a b] /= [a_in b_in [-> ->]]] | [sz /andP [v_in x_in]]].
    by move: b_in; rewrite IH eqSS => /andP [-> ->]; rewrite a_in.
  by exists (v, x); split=> //=; rewrite IH -eqSS sz.
Qed.

Lemma mem_grid (d : nat) (size : Z) (x : seq Z) :
  (x \in grid d size) = in_grid d size x.
Proof.
rewrite /grid mem_points /in_grid; congr (_ && _).
by apply: eq_all => v; rewrite /= mem_arange.
Qed.

Lemma map_fixed (A : eqType) (f : A -> A) (s : seq A) :
  reflect {in s, forall x, f x = x} ([seq f x | x <- s] == s).
Proof.
apply: (iffP eqP) => [E x /(nthP x) [i lt_i <-] | fx]; last exact: map_id_in.
by have := congr1 (fun t => nth x t i) E; rewrite (nth_map x).
Qed.

Lemma returns_gridP (matrix : ndarray) (d : nat) (size : Z) (k : nat) :
  reflect (forall x, in_grid d size x -> iter k (map_point matrix size) x = x)
          (returns_grid matrix d size k).
Proof.
apply: (iffP (map_fixed _ _)) => H x; first by rewrite -mem_grid; apply: H.
by rewrite mem_grid; apply: H.
Qed.

Section Period.

Variables (self : CatMatrix.t) (size : Z).

Let M := CatMatrix._matrix self.
Let d := CatMatrix._dim self.

Hypothesis d_gt0 : 0 < d.
Hypothesis nrM : nrows M = d.
Hypothesis ncM : ncols M = d.

Let G := grid d size.
Let F (t : nat) := [seq iter t (map_point M size) x | x <- G].

Let sized (pts : seq (seq Z)) := all (fun p => seq.size p == d) pts.

Let sized_F (t : nat) : sized (F t).
Proof.
apply/allP => _ /mapP [x /size_points sz ->]; case: t => [|t] /=; first by rewrite sz.
by rewrite (size_map_point size nrM).
Qed.

Let F0 : F 0 = G.
Proof. by rewrite /F /= map_id. Qed.

Lemma period_loop_step (fuel t : nat) :
  CatMap.period_loop fuel self size (of_cols d G) (of_cols d (F t)) t
  = if F t == G then Ok (Some t)
    else if fuel is fuel'.+1
         then CatMap.period_loop fuel' self size (of_cols d G) (of_cols d (F t.+1)) t.+1
         else Ok None.
Proof.
have eqGF : array_equal (of_cols d G) (of_cols d (F t)) = (F t == G).
  by rewrite -{1}F0 (of_cols_inj (sized_F 0) (sized_F t)) F0 eq_sym.
case: fuel => [|fuel] /=; rewrite eqGF //.
case: ifP => // _; rewrite /CatMap.mapping_out.
rewrite (mapping_of_cols size d_gt0 nrM ncM erefl erefl (sized_F t)) bindE.
set pts' := [seq map_point M size p | p <- F t].
have nr_eq : nrows (of_cols d pts') = nrows (of_cols d (F t)).
  by rewrite /nrows /= !size_map.
have nc_eq : ncols (of_cols d pts') = ncols (of_cols d (F t)).
  by rewrite /= !size_map.
by rewrite (broadcast_same nr_eq nc_eq) /pts' /F -map_comp.
Qed.

Lemma period_loop_complete (fuel t k : nat) :
  t <= k -> (forall j, t <= j < k -> F j != G) -> F k == G -> k - t <= fuel ->
  CatMap.period_loop fuel self size (of_cols d G) (of_cols d (F t)) t = Ok (Some k).
Proof.
elim: fuel t => [|fuel IH] t le_tk least ret le_fuel; rewrite period_loop_step.
  have -> : t = k by apply/eqP; rewrite eqn_leq le_tk -subn_eq0 -leqn0.
  by rewrite ret.
case: (ltngtP t k) le_tk => // [lt_tk | ->] _; last by rewrite ret.
rewrite (negbTE (least t _)) ?leqnn //; apply: IH => //.
  by move=> j /andP [lt_j lt_jk]; apply: least; rewrite (ltnW lt_j).
by rewrite subnS -ltnS (leq_trans _ le_fuel) // prednK // subn_gt0.
Qed.

Lemma period_loop_sound (fuel t k : nat) :
  CatMap.period_loop fuel self size (of_cols d G) (of_cols d (F t)) t = Ok (Some k) ->
  [/\ t <= k, F k == G & forall j, t <= j < k -> F j != G].
Proof.
elim: fuel t => [|fuel IH] t; rewrite period_loop_step; case: ifP => [FG | FG] //.
- by case=> <-; split=> // j; rewrite ltnNge andbN.
- by case=> <-; split=> // j; rewrite ltnNge andbN.
case/IH => lt_tk ret least; split=> //; first exact: ltnW.
move=> j /andP []; rewrite leq_eqVlt => /orP [/eqP <- _ | lt_j lt_jk].
  by rewrite FG.
by apply: least; rewrite lt_j.
Qed.

Lemma period_eq (fuel : nat) :
  CatMap.period fuel self size
  = CatMap.period_loop fuel self size (of_cols d G) (of_cols d (F 1)) 1.
Proof.
rewrite /CatMap.period cube_coord_cols // bindE.
have szG : sized G by rewrite -F0.
by rewrite (mapping_of_cols size d_gt0 nrM ncM erefl erefl szG) bindE.
Qed.

End Period.

(** C3: [period] returns the smallest positive [k] such that [k]
    applications of the map return every point of the grid
    [[0, size)^dim] to itself: whatever it returns is that number, and when
    that number exists it is returned as soon as the loop is given [k - 1]
    turns.  For [[1, 1], [1, 2]] and size 5 it returns 10. *)
Theorem period_least :
  (forall (self : CatMatrix.t) (size : Z),
     let M := CatMatrix._matrix self in
     let d := CatMatrix._dim self in
     let returns k :=
       forall x, in_grid d size x -> iter k (map_point M size) x = x in
     0 < d -> nrows M = d -> ncols M = d ->
     (forall fuel k,
        CatMap.period fuel self size = Ok (Some k) ->
        [/\ 1 <= k, returns k & forall j, 1 <= j < k -> ~ returns j])
     /\ (forall k,
           1 <= k -> returns k -> (forall j, 1 <= j < k -> ~ returns j) ->
           forall fuel, k - 1 <= fuel ->
           CatMap.period fuel self size = Ok (Some k)))
  /\ CatMap.period 9 (CatMatrix.Make (NdArray 2 [:: [:: 1; 1]; [:: 1; 2]]%Z) 2) 5
     = Ok (Some 10).
Proof.
split; last by vm_compute; reflexivity.
move=> self size M d returns d_gt0 nrM ncM.
have retP k : reflect (returns k) (returns_grid M d size k).
  exact: returns_gridP.
split=> [fuel k | k k1 ret least fuel le_fuel]; rewrite period_eq //.
  case/(period_loop_sound d_gt0 nrM ncM) => k1 ret least; split=> //.
    exact/retP.
  by move=> j /least /negP ne /retP.
have /retP ret' := ret.
apply: period_loop_complete => // j /least ne.
by apply/negP => /retP.
Qed.

Lemma period_least_witness :
  CatMap.period 9 (CatMatrix.Make (NdArray 2 [:: [:: 1; 1]; [:: 1; 2]]%Z) 2) 5
  = Ok (Some 10).
Proof.
have [H _] := period_least.
have [_ complete] :=
  H (CatMatrix.Make (NdArray 2 [:: [:: 1; 1]; [:: 1; 2]]%Z) 2) 5%Z isT erefl erefl.
have ret : returns_grid (NdArray 2 [:: [:: 1; 1]; [:: 1; 2]]%Z) 2 5 10.
  by vm_compute.
have least :
    all (fun j => ~~ returns_grid (NdArray 2 [:: [:: 1; 1]; [:: 1; 2]]%Z) 2 5 j)
        (iota 1 9).
  by vm_compute.
apply: (complete 10 isT (returns_gridP _ _ _ _ ret) _ 9 isT) => j j_rng.
move/returns_gridP; apply/negP.
by move/allP: least; apply; rewrite mem_iota.
Defined.

(** *** The loop ends on a unimodular matrix whose products fit int64 *)

Section Orbit.

Variables (M : ndarray) (d : nat) (size : Z).

Hypothesis wfM : wf_array M.
Hypothesis nrM : nrows M = d.
Hypothesis ncM : ncols M = d.
Hypothesis detM : det M = 1%Z.
Hypothesis size1 : (1 <= size)%Z.
Hypothesis fits : forall x, in_grid d size x -> no_overflow M x.

Let G := grid d size.

Lemma map_point_grid (x : seq Z) : in_grid d size (map_point M size x).
Proof.
rewrite /in_grid (size_map_point size nrM) eqxx /=.
by apply/allP => _ /mapP [r _ ->]; apply: np_mod_range.
Qed.

Let step_in (u : seq_sub G) : map_point M size (ssval u) \in G.
Proof. by rewrite mem_grid map_point_grid. Qed.

Let step (u : seq_sub G) : seq_sub G := SeqSub (step_in u).

Let step_inj : injective step.
Proof.
case=> [x x_in] [y y_in] /(congr1 val) /= E; apply: val_inj => /=.
pose self := CatMatrix.Make M d.
move: x_in y_in; rewrite !mem_grid => gx gy.
exact: (@map_point_inj self size wfM nrM ncM detM size1 x y gx gy
          (fits gx) (fits gy) E).
Qed.

Let val_iter (k : nat) (u : seq_sub G) :
  val (iter k step u) = iter k (map_point M size) (val u).
Proof. by elim: k => [|k IH] //=; rewrite -IH. Qed.

(** Some positive number of applications returns every grid point. *)
Lemma returns_grid_ex : exists2 k, 0 < k & returns_grid M d size k.
Proof.
pose p := perm step_inj; exists #[p]%g; first exact: order_gt0.
apply/returns_gridP => x; rewrite -mem_grid => x_in.
have := val_iter #[p]%g (SeqSub x_in); rewrite /= => <-.
have -> : iter #[p]%g step (SeqSub x_in) = iter #[p]%g p (SeqSub x_in).
  by apply: eq_iter => u; rewrite permE.
by rewrite -permX expg_order perm1.
Qed.

(** The least one. *)
Lemma returns_grid_least :
  exists k,
    [/\ 0 < k, returns_grid M d size k
      & forall j, 1 <= j < k -> ~~ returns_grid M d size j].
Proof.
have [k0 k0_gt0 ret0] := returns_grid_ex.
have ex : exists k, (0 < k) && returns_grid M d size k.
  by exists k0; rewrite k0_gt0.
case: (ex_minnP ex) => k /andP [k_gt0 ret] least; exists k; split=> //.
move=> j /andP [j_gt0 lt_jk]; apply/negP => retj.
by have := least j; rewrite j_gt0 retj leqNgt lt_jk => /(_ isT).
Qed.

End Orbit.

(** X4: on a matrix with determinant 1 none of whose int64 products on the
    grid overflows, the loop of [period] ends: there is a positive [k] that
    [period] returns as soon as the loop is given [k - 1] turns. *)
Lemma period_terminates (self : CatMatrix.t) (size : Z) :
  let M := CatMatrix._matrix self in
  let d := CatMatrix._dim self in
  0 < d -> wf_array M -> nrows M = d -> ncols M = d -> det M = 1%Z ->
  (1 <= size)%Z ->
  (forall x, in_grid d size x -> no_overflow M x) ->
  exists2 k, 0 < k
    & forall fuel, k - 1 <= fuel -> CatMap.period fuel self size = Ok (Some k).
Proof.
move=> M d d_gt0 wfM nrM ncM detM size1 fits.
have [k [k_gt0 ret least]] := returns_grid_least wfM nrM ncM detM size1 fits.
exists k => // fuel le_fuel; rewrite period_eq //.
by apply: period_loop_complete => // j /least.
Qed.

(** With the wrap-around of the second product, the map of
    [[1, 2^63 - 1], [0, 1]] and size 3 is not injective on the grid, no number
    of applications returns every point, and the loop of [period] never
    ends. *)
Lemma period_diverges :
  let m := NdArray 2 [:: [:: 1; 2 ^ 63 - 1]; [:: 0; 1]]%Z in
  forall fuel, CatMap.period fuel (CatMatrix.Make m 2) 3 = Ok None.
Proof.
move=> m fuel; rewrite period_eq //.
have never t : 0 < t -> returns_grid m 2 3 t = false.
  case: t => [|t] // _; apply/negP => /returns_gridP ret.
  have /ret : in_grid 2 3 [:: 0; 1]%Z by [].
  have /ret : in_grid 2 3 [:: 1; 1]%Z by [].
  rewrite !iterSr.
  have -> : map_point m 3 [:: 1; 1]%Z = map_point m 3 [:: 0; 1]%Z by vm_compute.
  by move=> -> [].
pose self := CatMatrix.Make m 2.
have loop n t :
    0 < t ->
    CatMap.period_loop n self 3 (of_cols 2 (grid 2 3))
      (of_cols 2 [seq iter t (map_point m 3) x | x <- grid 2 3]) t = Ok None.
  elim: n t => [|n IH] t t_gt0;
    rewrite (@period_loop_step self 3 isT erefl erefl)
            -/(returns_grid m 2 3 t) never //.
  exact: IH.
exact: loop.
Qed.

(** *** The map is onto the grid when no product overflows *)

Lemma map_point_surj (M : ndarray) (d : nat) (size : Z) :
  wf_array M -> nrows M = d -> ncols M = d -> det M = 1%Z ->
  (1 <= size)%Z ->
  (forall x, in_grid d size x -> no_overflow M x) ->
  forall y, in_grid d size y ->
  exists2 x, in_grid d size x & map_point M size x = y.
Proof.
move=> wfM nrM ncM detM size1 fits y gy.
have [[|k] // _ /returns_gridP ret] :=
  returns_grid_ex wfM nrM ncM detM size1 fits.
exists (iter k (map_point M size) y); last by rewrite -iterS ret.
by case: k {ret} => [|k] //=; apply: map_point_grid.
Qed.

(** C4, as the code has it: the matrix, the points and the size are int64
    and the product is an int64 product.  For a square int64 matrix with
    determinant exactly 1 and a size from 1 to [2^63 - 1], two points of the
    grid [[0, size)^dim] at which no item of the product leaves the int64
    range and on which [mapping] returns the same array are the same point;
    and when no item of the product leaves the int64 range at any point of
    the grid, every point of the grid is the image of a point of the grid. *)
Theorem mapping_injective (self : CatMatrix.t) (size : Z) :
  let M := CatMatrix._matrix self in
  let d := CatMatrix._dim self in
  wf_array M -> nrows M = d -> ncols M = d -> array_int64 M -> det M = 1%Z ->
  (1 <= size <= int64_max)%Z ->
  (forall x y,
     in_grid d size x -> in_grid d size y ->
     no_overflow M x -> no_overflow M y ->
     CatMap.mapping self x size = CatMap.mapping self y size ->
     x = y)
  /\ (0 < d ->
      (forall x, in_grid d size x -> no_overflow M x) ->
      forall y, in_grid d size y ->
      exists2 x, in_grid d size x
        & CatMap.mapping self x size = Ok (column y)).
Proof.
move=> M d wfM nrM ncM M64 detM [size1 _].
split=> [x y gx gy ox oy | d_gt0 fits y gy].
  have [/eqP sz_x _] := andP gx; have [/eqP sz_y _] := andP gy.
  case: (posnP d) => [d0 | d_gt0].
    by move: sz_x sz_y; rewrite d0 => /size0nil -> /size0nil ->.
  rewrite !mapping_point // => E.
  apply: (map_point_inj wfM nrM ncM detM size1 gx gy) => //.
  by apply: column_inj; apply: Ok_inj E.
have [x gx <-] := map_point_surj wfM nrM ncM detM size1 fits gy.
by exists x => //; have [/eqP sz_x _] := andP gx; rewrite mapping_point.
Qed.

Lemma mapping_injective_witness :
  let self := CatMatrix.Make (NdArray 2 [:: [:: 1; 1]; [:: 1; 2]]%Z) 2 in
  (CatMap.mapping self [:: 2; 3]%Z 5 = CatMap.mapping self [:: 2; 3]%Z 5
   /\ [:: 2; 3]%Z = [:: 2; 3]%Z)
  /\ (exists2 x, in_grid 2 5 x
        & CatMap.mapping self x 5 = Ok (column [:: 0; 3]%Z)).
Proof.
move=> self.
have size_rng : (1 <= 5 <= int64_max)%Z by rewrite /int64_max; lia.
have fits x : in_grid 2 5 x -> no_overflow (CatMatrix._matrix self) x.
  have /allP all_fit : all (no_overflow (CatMatrix._matrix self)) (grid 2 5).
    by vm_compute.
  by rewrite -mem_grid; apply: all_fit.
have [inj surj] :=
  @mapping_injective self 5%Z isT erefl erefl isT erefl size_rng.
split; last exact: (surj isT fits [:: 0; 3]%Z isT).
split; first by [].
exact: (inj [:: 2; 3]%Z [:: 2; 3]%Z isT isT isT isT erefl).
Defined.

(** C4 as the claim words it fails: the matrix [[1, 2^63 - 1], [0, 1]] has
    determinant 1 and is accepted by the constructor; with size 3 the grid
    points (0, 1) and (1, 1) are both sent to (1, 1), because the int64
    product of the second one wraps around. *)
Lemma mapping_collision :
  let m := NdArray 2 [:: [:: 1; 2 ^ 63 - 1]; [:: 0; 1]]%Z in
  let self := CatMatrix.Make m 2 in
  [/\ CatMatrix.init m = Ok self /\ det m = 1%Z,
      (1 <= 3)%Z,
      in_grid 2 3 [:: 0; 1]%Z /\ in_grid 2 3 [:: 1; 1]%Z,
      CatMap.mapping self [:: 0; 1]%Z 3 = CatMap.mapping self [:: 1; 1]%Z 3
    & [:: 0; 1]%Z <> [:: 1; 1]%Z].
Proof. by split. Qed.

(** * Further properties of the cat map *)

(** ** The shapes [mapping] accepts *)

(** X1: on an int64 matrix, data whose items fit int64 and a size that
    fits int64, [mapping] returns exactly when the dimension is positive, the
    number of items of [data] is a multiple of it and the matrix has as many
    columns as the dimension; the result then has the rows of the matrix and
    one column per point.  In every other case the operation raises the
    shape error of [reshape] or [matmul]. *)
Theorem mapping_shape (self : CatMatrix.t) (data : seq Z) (size : Z) :
  let M := CatMatrix._matrix self in
  let d := CatMatrix._dim self in
  array_int64 M -> all in_int64 data -> in_int64 size ->
  if [&& 0 < d, d %| seq.size data & ncols M == d]
  then exists2 res, CatMap.mapping self data size = Ok res
                  & nrows res = nrows M /\ ncols res = seq.size data %/ d
  else CatMap.mapping self data size = Err ShapeError.
Proof.
move=> M d _ _ _; rewrite /CatMap.mapping /np_reshape_infer -/d -/M.
case: (posnP d) => [-> | d_gt0] //=.
rewrite /dvdn; case: eqP => [mod0 | _] //=.
have sz : seq.size data = d * (seq.size data %/ d).
  by rewrite mulnC; apply/esym/divnK; rewrite /dvdn mod0.
rewrite /np_reshape -sz eqxx /= /CatMap.matmul /nrows /=.
rewrite size_reshape size_nseq; case: eqP => [_ | _] //=.
by eexists; [reflexivity | rewrite /= !size_map].
Qed.

Lemma mapping_shape_witness :
  let self := CatMatrix.Make (NdArray 2 [:: [:: 1; 1]; [:: 1; 2]]%Z) 2 in
  (exists2 res, CatMap.mapping self [:: 2; 4; 3; 1]%Z 5 = Ok res
              & nrows res = 2 /\ ncols res = 4 %/ 2)
  /\ CatMap.mapping self [:: 2; 4; 3]%Z 5 = Err ShapeError.
Proof.
move=> self.
have M64 : array_int64 (CatMatrix._matrix self) by vm_compute.
have size64 : in_int64 5 by vm_compute.
have d1 : all in_int64 [:: 2; 4; 3; 1]%Z by vm_compute.
have d2 : all in_int64 [:: 2; 4; 3]%Z by vm_compute.
exact (conj (@mapping_shape self [:: 2; 4; 3; 1]%Z 5%Z M64 d1 size64)
            (@mapping_shape self [:: 2; 4; 3]%Z 5%Z M64 d2 size64)).
Defined.

(** ** A batch of points *)

(** X2: on an int64 matrix, points whose items fit int64 and a size that
    fits int64, [mapping] treats the columns of its input one by one: when
    the array whose columns are the points [pts] is mapped, column [j] of the
    result is what [mapping] returns for point [j] alone. *)
Theorem mapping_columnwise (self : CatMatrix.t) (pts : seq (seq Z)) (size : Z) :
  let M := CatMatrix._matrix self in
  let d := CatMatrix._dim self in
  0 < d -> nrows M = d -> ncols M = d -> array_int64 M ->
  all (fun p => seq.size p == d) pts -> all (all in_int64) pts ->
  in_int64 size ->
  exists res,
    [/\ CatMap.mapping self (flatten (rows (of_cols d pts))) size = Ok res,
        nrows res = d, ncols res = seq.size pts
      & forall j, j < seq.size pts ->
        CatMap.mapping self (nth [::] pts j) size = Ok (column (CatMap.col j res))].
Proof.
move=> M d d_gt0 nrM ncM _ sz _ _.
exists (of_cols d [seq map_point M size p | p <- pts]); split.
- exact: (mapping_of_cols size d_gt0 nrM ncM).
- by rewrite /nrows /= size_map size_iota.
- by rewrite /= size_map.
move=> j lt_j.
have /allP all_sz := sz.
have /all_sz /eqP sz_j := mem_nth [::] lt_j.
rewrite mapping_point // col_of_cols ?size_map //; last by rewrite (nth_map [::]).
by apply/allP => _ /mapP [p _ ->]; rewrite (size_map_point size nrM).
Qed.

Lemma mapping_columnwise_witness :
  let self := CatMatrix.Make (NdArray 2 [:: [:: 1; 1]; [:: 1; 2]]%Z) 2 in
  exists res,
    [/\ CatMap.mapping self [:: 2; 4; 3; 1]%Z 5 = Ok res,
        CatMap.mapping self [:: 2; 3]%Z 5 = Ok (column (CatMap.col 0 res))
      & CatMap.mapping self [:: 4; 1]%Z 5 = Ok (column (CatMap.col 1 res))].
Proof.
move=> self.
have M64 : array_int64 (CatMatrix._matrix self) by vm_compute.
have size64 : in_int64 5 by vm_compute.
have pts64 : all (all in_int64) [:: [:: 2; 3]; [:: 4; 1]]%Z by vm_compute.
have [res [E _ _ H]] :=
  @mapping_columnwise self [:: [:: 2; 3]; [:: 4; 1]]%Z 5%Z isT erefl erefl M64 isT
    pts64 size64.
by exists res; split; [exact: E | exact: (H 0 isT) | exact: (H 1 isT)].
Defined.

(** ** The grid of [cube_coord] *)

Lemma uniq_arange (size : Z) : uniq (CatMap.arange size).
Proof.
rewrite /CatMap.arange map_inj_uniq ?iota_uniq //.
exact: Nat2Z.inj.
Qed.

Lemma uniq_points (d : nat) (vals : seq Z) : uniq vals -> uniq (CatMap.points d vals).
Proof.
move=> uv; elim: d => [|d IH] //=.
by apply: allpairs_uniq => // -[a p] [b q] _ _ /= [-> ->].
Qed.

Lemma size_all_points (d : nat) (vals : seq Z) :
  seq.size (CatMap.points d vals) = seq.size vals ^ d.
Proof. by elim: d => [|d IH] //=; rewrite size_allpairs IH expnS. Qed.

(** X3: for a positive dimension [cube_coord] returns an array of
    [dimension] rows and [size ^ dimension] columns (none when [size] is not
    positive) whose columns are the points of the grid
    [[0, size)^dimension], each of them once; for the dimension 0 the
    reshape of the empty [meshgrid] raises. *)
Theorem cube_coord_enumerates (dimension : nat) (size : Z) :
  CatMap.cube_coord 0 size = Err ShapeError
  /\ exists a,
       let cols := [seq CatMap.col j a | j <- iota 0 (ncols a)] in
       [/\ CatMap.cube_coord dimension.+1 size = Ok a,
           nrows a = dimension.+1 /\ ncols a = Z.to_nat size ^ dimension.+1,
           wf_array a,
           uniq cols
         & forall x, (x \in cols) = in_grid dimension.+1 size x].
Proof.
split=> //; set d := dimension.+1.
exists (of_cols d (grid d size)); rewrite /=.
have sz : all (fun p => seq.size p == d) (grid d size).
  by apply/allP => p /size_points ->.
have -> : [seq CatMap.col j (of_cols d (grid d size))
             | j <- iota 0 (seq.size (grid d size))] = grid d size.
  apply: (@eq_from_nth _ [::]) => [|j]; first by rewrite size_map size_iota.
  rewrite size_map size_iota => lt_j.
  by rewrite (nth_map 0) ?size_iota // nth_iota // add0n col_of_cols.
split=> //.
- split; first by rewrite /nrows /= size_map size_iota.
  by rewrite /grid size_all_points /CatMap.arange size_map size_iota.
- exact: of_cols_wf.
- exact/uniq_points/uniq_arange.
- exact: mem_grid.
Qed.

(** ** The period *)

Lemma period_terminates_witness :
  let self := CatMatrix.Make (NdArray 2 [:: [:: 1; 1]; [:: 1; 2]]%Z) 2 in
  exists2 k, 0 < k
    & forall fuel, k - 1 <= fuel -> CatMap.period fuel self 5 = Ok (Some k).
Proof.
move=> self.
have size1 : (1 <= 5)%Z by lia.
have fits x : in_grid 2 5 x -> no_overflow (CatMatrix._matrix self) x.
  have /allP all_fit : all (no_overflow (CatMatrix._matrix self)) (grid 2 5).
    by vm_compute.
  by rewrite -mem_grid; apply: all_fit.
exact: (@period_terminates self 5%Z isT isT erefl erefl erefl size1 fits).
Defined.

Lemma returns_grid_mul (matrix : ndarray) (d : nat) (size : Z) (k q : nat) :
  returns_grid matrix d size k -> returns_grid matrix d size (q * k).
Proof.
move=> /returns_gridP ret; apply/returns_gridP => x gx.
by elim: q => [|q IH] //; rewrite mulSn iterD IH ret.
Qed.

(** X5: the number [k] that [period] returns divides every number of
    applications that returns every point of the grid to itself, and every
    multiple of [k] does return them. *)
Theorem period_divides (self : CatMatrix.t) (size : Z) (fuel k : nat) :
  let M := CatMatrix._matrix self in
  let d := CatMatrix._dim self in
  0 < d -> nrows M = d -> ncols M = d ->
  CatMap.period fuel self size = Ok (Some k) ->
  forall j, returns_grid M d size j = (k %| j).
Proof.
move=> M d d_gt0 nrM ncM; rewrite period_eq //.
case/(period_loop_sound d_gt0 nrM ncM) => k_gt0 retk least j.
rewrite -/(returns_grid M d size k) in retk.
rewrite {1}(divn_eq j k) /dvdn.
have retq := returns_grid_mul (j %/ k) retk.
case: (posnP (j %% k)) => [-> | r_gt0]; first by rewrite addn0 retq.
apply/negbTE.
have /least : 1 <= j %% k < k by rewrite r_gt0 ltn_mod.
rewrite -/(returns_grid M d size (j %% k)); apply: contra.
move=> /returns_gridP ret; apply/returns_gridP => x gx.
by have := ret x gx; rewrite addnC iterD (returns_gridP _ _ _ _ retq).
Qed.

Lemma period_divides_witness :
  let m := NdArray 2 [:: [:: 1; 1]; [:: 1; 2]]%Z in
  returns_grid m 2 5 20 = (10 %| 20).
Proof.
move=> m.
have E : CatMap.period 9 (CatMatrix.Make m 2) 5 = Ok (Some 10).
  by vm_compute.
exact: (@period_divides (CatMatrix.Make m 2) 5%Z 9 10 isT erefl erefl E 20).
Defined.

(** X6: for a size of at most 1 the grid has one point (size 1) or none
    (size 0 or negative), the first application already gives the grid back,
    and [period] returns 1 without entering its loop. *)
Theorem period_small_size (self : CatMatrix.t) (size : Z) (fuel : nat) :
  let M := CatMatrix._matrix self in
  let d := CatMatrix._dim self in
  0 < d -> nrows M = d -> ncols M = d -> (size <= 1)%Z ->
  CatMap.period fuel self size = Ok (Some 1).
Proof.
move=> M d d_gt0 nrM ncM size1; rewrite period_eq //.
apply: period_loop_complete => //; first by case.
rewrite -/(returns_grid M d size 1).
apply/returns_gridP => x /andP [/eqP sz_x /allP rng] /=.
have size_eq : size = 1%Z.
  case: x sz_x rng => [|v x] sz_x rng; first by rewrite -sz_x in d_gt0.
  have /rng /andP [/Z.leb_le lo /Z.ltb_lt hi] : v \in v :: x by rewrite inE eqxx.
  by clear -lo hi size1; lia.
have zeros : x = nseq d 0%Z.
  apply: (@eq_from_nth _ 0%Z) => [|i lt_i]; first by rewrite size_nseq.
  rewrite nth_nseq -sz_x lt_i.
  have /rng /andP [/Z.leb_le lo /Z.ltb_lt hi] := mem_nth 0%Z lt_i.
  by move: lo hi; rewrite size_eq; move: (nth _ _ _) => w; lia.
rewrite {2}zeros /map_point; apply: (@eq_from_nth _ 0%Z) => [|i].
  by rewrite size_map size_nseq.
rewrite size_map => lt_i; rewrite (nth_map [::]) // nth_nseq.
rewrite -/(nrows M) nrM in lt_i; rewrite lt_i.
by rewrite /CatMap.np_mod size_eq /=; apply: Z.mod_1_r.
Qed.

Lemma period_small_size_witness :
  CatMap.period 0 (CatMatrix.Make (NdArray 2 [:: [:: 1; 1]; [:: 1; 2]]%Z) 2) 1
  = Ok (Some 1).
Proof.
have size1 : (1 <= 1)%Z by lia.
exact: (@period_small_size (CatMatrix.Make (NdArray 2 [:: [:: 1; 1]; [:: 1; 2]]%Z) 2)
          1%Z 0 isT erefl erefl size1).
Defined.

(** * Further properties of the Laplace extension *)

Lemma all_ncons (A : Type) (p : pred A) (n : nat) (x : A) (s : seq A) :
  p x -> all p s -> all p (ncons n x s).
Proof. by move=> px ps; elim: n => [|n IH] //=; rewrite px. Qed.

Lemma all_set_nth (A : Type) (p : pred A) (x0 : A) (s : seq A) (i : nat) (y : A) :
  p x0 -> all p s -> p y -> all p (set_nth x0 s i y).
Proof.
move=> px0 ps py; elim: s i ps => [|a s IH] [|i] //=.
- by rewrite py.
- by move=> _; rewrite px0 all_ncons //= py.
- by case/andP => _ ->; rewrite py.
- by case/andP => -> /IH ->.
Qed.

Lemma all_ins (A : Type) (p : pred A) (k : nat) (x : A) (s : seq A) :
  all p (ins k x s) = p x && all p s.
Proof. by rewrite /ins all_cat /= andbCA -all_cat cat_take_drop. Qed.

Lemma candidate_int64 (M : ndarray) (row col : seq Z) (r c : nat) :
  array_int64 M -> all in_int64 row -> all in_int64 col ->
  array_int64 (laplace_candidate M row col r c).
Proof.
move=> M64 row64 col64; rewrite /array_int64 /= all_ins all_ins /= col64 /=.
apply/allP => _ /mapP [[x s] /mem_zip [x_in s_in] ->] /=.
by rewrite all_ins (allP row64 _ x_in) (allP M64 _ s_in).
Qed.

(** One extension of a unimodular matrix: [extend] returns the exact next
    matrix when the new entry fits int64, and raises [OverflowError] when it
    does not; the matrix returned is unimodular. *)
Lemma laplace_extend_exact (M : ndarray) (row col : seq Z) (r c n : nat) :
  unimodular n M -> r <= n -> c <= n ->
  size row = n -> size col = n -> all in_int64 row -> all in_int64 col ->
  LaplaceExtension.extend M row col r c
  = (if in_int64 (laplace_entry M row col r c)
     then Ok (laplace_next M row col r c) else Err OverflowError)
  /\ (in_int64 (laplace_entry M row col r c) ->
      unimodular n.+1 (laplace_next M row col r c)).
Proof.
case/and5P => wfM /eqP nrM /eqP ncM M64 /eqP detM le_r le_c sz_row sz_col row64 col64.
rewrite /laplace_next /laplace_entry.
set cand := laplace_candidate M row col r c.
have [nrc ncc] : nrows cand = n.+1 /\ ncols cand = n.+1.
  exact: (candidate_shape col r c nrM ncM sz_row).
have wfc : wf_array cand by apply: (candidate_wf row r c wfM ncM sz_col).
have lt_r : r < nrows cand by rewrite nrc ltnS.
have lt_c : c < ncols cand by rewrite ncc ltnS.
rewrite (laplace_extend_eq nrM ncM M64 le_r le_c sz_row sz_col row64 col64).
rewrite -/cand cofactors_ok //; first by rewrite /square nrc ncc.
rewrite bindE; set x := (_ * _)%Z.
split.
  case: (boolP (in_int64 x)) => [x64 | x64]; last by rewrite setitem_overflow.
  by rewrite setitem_ok.
move=> x64; apply/and5P; split.
- exact: setitem_wf.
- by rewrite /nrows /= size_set_nth (maxn_idPr lt_r) -/(nrows cand) nrc.
- by rewrite -ncc eqxx.
- rewrite /array_int64 /=.
  have c64 : array_int64 cand by apply: candidate_int64.
  apply: all_set_nth => //; apply: all_set_nth => //.
  by apply: (all_nthP [::] c64).
- by apply/eqP; rewrite /det /nrows /= size_set_nth (maxn_idPr lt_r) -/(nrows cand)
       nrc; apply: (candidate_set_det wfM nrM ncM le_r le_c sz_row sz_col detM).
Qed.

Lemma foldl_bind_err (A B : Type) (g : A -> B -> result A) (e : error) (l : seq B) :
  foldl (fun acc j => c <- acc ;; g c j) (Err e) l = Err e.
Proof. by elim: l. Qed.

(** The loop of [create]: it returns the exact matrix when every new entry
    fits int64, and raises [OverflowError] at the first one that does not. *)
Lemma laplace_loop_exact (rows cols : seq (seq Z)) (rows_loc cols_loc : seq nat)
    (n k i : nat) (cat : ndarray) :
  laplace_args_ok n rows cols rows_loc cols_loc -> i + k <= n ->
  unimodular i.+1 cat ->
  foldl (fun acc j =>
           c <- acc ;; LaplaceExtension.step rows cols rows_loc cols_loc c j)
        (Ok cat) (iota i k)
  = (if laplace_fits rows cols rows_loc cols_loc cat i k
     then Ok (laplace_exact rows cols rows_loc cols_loc cat i k)
     else Err OverflowError)
  /\ (laplace_fits rows cols rows_loc cols_loc cat i k ->
      unimodular (i + k).+1 (laplace_exact rows cols rows_loc cols_loc cat i k)).
Proof.
move=> ok; elim: k i cat => [|k IH] i cat le_n uni /=; first by rewrite addn0.
have lt_i : i < n by apply: leq_trans le_n; rewrite addnS ltnS leq_addr.
case/and5P: (ok) => /eqP sr /eqP sc /eqP srl /eqP scl /allP ok_all.
have := ok_all i; rewrite mem_iota add0n lt_i => /(_ isT).
case/and5P => /eqP sz_row row64 /eqP sz_col col64 /andP [le_r le_c].
have -> : LaplaceExtension.step rows cols rows_loc cols_loc cat i
          = LaplaceExtension.extend cat (nth [::] rows i) (nth [::] cols i)
              (nth 0 rows_loc i) (nth 0 cols_loc i).
  rewrite /LaplaceExtension.step (getitem_nth [::]) ?sr // bindE.
  rewrite (getitem_nth [::]) ?sc // bindE (getitem_nth 0) ?srl // bindE.
  by rewrite (getitem_nth 0) ?scl.
have [-> uni'] := laplace_extend_exact uni le_r le_c sz_row sz_col row64 col64.
case: ifP uni' => [_ /(_ isT) uni' | _ _] /=; last by rewrite foldl_bind_err.
by rewrite addnS -addSn; apply: IH => //; rewrite addSn -addnS.
Qed.

Lemma laplace_sizes (n : nat) (rows : seq (seq Z)) :
  size rows = n -> (forall i, i < n -> size (nth [::] rows i) = i.+1) ->
  [seq size s | s <- rows] = iota 1 n.
Proof.
move=> sz H; apply: (@eq_from_nth _ 0) => [|i]; first by rewrite size_map size_iota.
rewrite size_map sz => lt_i.
by rewrite (nth_map [::]) ?sz // nth_iota // add1n H.
Qed.

Lemma laplace_check_ok (dim : Z) (rows cols : seq (seq Z))
    (rows_loc cols_loc : seq nat) :
  (2 <= dim)%Z ->
  laplace_args_ok (Z.to_nat dim).-1 rows cols rows_loc cols_loc ->
  LaplaceExtension.check_parameters dim rows cols rows_loc cols_loc
  = Ok (dim - 1)%Z.
Proof.
move=> dim2; set n := (Z.to_nat dim).-1.
have dimE : dim = (Z.of_nat n + 1)%Z by rewrite /n; lia.
case/and5P => /eqP sr /eqP sc /eqP srl /eqP scl /allP ok.
have ok_i i : i < n ->
    size (nth [::] rows i) = i.+1 /\ size (nth [::] cols i) = i.+1.
  move=> lt_i; have := ok i; rewrite mem_iota add0n lt_i => /(_ isT).
  by case/and5P => /eqP -> _ /eqP ->.
rewrite /LaplaceExtension.check_parameters.
have /Z.leb_gt -> : (1 < dim)%Z by lia.
rewrite (laplace_sizes sr) => [i /ok_i [] //|].
rewrite (laplace_sizes sc) => [i /ok_i [] //|].
rewrite srl scl.
set s := sumn (iota 1 n).
have E : (Z.of_nat s * 2 = Z.of_nat n * (Z.of_nat n + 1))%Z.
  by have := sumn_iota1 n; rewrite -/s -!multE; lia.
suff /Z.eqb_eq -> : ((dim - 1) * dim + 2 * (dim - 1)
                     = Z.of_nat (s + s + (n + n)))%Z.
  by [].
rewrite -!plusE !Nat2Z.inj_add dimE.
by move: E; move: (Z.of_nat s) (Z.of_nat n) => a b; nia.
Qed.

(** [create] on parameters of the sizes it consumes. *)
Lemma laplace_create_exact (dim : Z) (rows cols : seq (seq Z))
    (rows_loc cols_loc : seq nat) :
  let n := (Z.to_nat dim).-1 in
  let seed := NdArray 1 [:: [:: 1%Z]] in
  (2 <= dim)%Z ->
  laplace_args_ok n rows cols rows_loc cols_loc ->
  LaplaceExtension.create dim rows cols rows_loc cols_loc
  = (if laplace_fits rows cols rows_loc cols_loc seed 0 n
     then Ok (laplace_exact rows cols rows_loc cols_loc seed 0 n)
     else Err OverflowError)
  /\ (laplace_fits rows cols rows_loc cols_loc seed 0 n ->
      unimodular (Z.to_nat dim) (laplace_exact rows cols rows_loc cols_loc seed 0 n)).
Proof.
move=> n seed dim2 ok; rewrite /LaplaceExtension.create laplace_check_ok // bindE.
have -> : Z.to_nat (dim - 1) = n by rewrite /n; lia.
have -> : Z.to_nat dim = (0 + n).+1 by rewrite add0n /n prednK //; apply/ltP; lia.
exact: (laplace_loop_exact ok (leqnn (0 + n)) ones_unimodular).
Qed.

(** X7: [LaplaceExtension.create] raises the dimension error for every
    [dim] below 2, whatever the other parameters are.  For [dim >= 2] and
    parameters of the sizes the loop consumes ([dim - 1] rows and columns,
    the [i]-th of [i + 1] int64 items, and [dim - 1] insertion indices for
    each, the [i]-th in [[0, i + 1]]), it returns exactly when every new
    entry [(-1) ^ (row_loc + col_loc) * (1 - S)] of the construction
    fits int64: it then returns the matrix of the exact construction, a
    [dim] x [dim] int64 array with determinant 1; when a new entry does not
    fit it raises [OverflowError]. *)
Theorem laplace_create_det (dim : Z) (rows cols : seq (seq Z))
    (rows_loc cols_loc : seq nat) :
  let n := (Z.to_nat dim).-1 in
  let seed := NdArray 1 [:: [:: 1%Z]] in
  ((dim <= 1)%Z ->
   LaplaceExtension.create dim rows cols rows_loc cols_loc = Err InvalidDimension)
  /\ ((2 <= dim)%Z ->
      laplace_args_ok n rows cols rows_loc cols_loc ->
      LaplaceExtension.create dim rows cols rows_loc cols_loc
      = (if laplace_fits rows cols rows_loc cols_loc seed 0 n
         then Ok (laplace_exact rows cols rows_loc cols_loc seed 0 n)
         else Err OverflowError)
      /\ (laplace_fits rows cols rows_loc cols_loc seed 0 n ->
          unimodular (Z.to_nat dim)
            (laplace_exact rows cols rows_loc cols_loc seed 0 n))).
Proof.
move=> n seed; split=> [dim1 | dim2 ok]; last exact: laplace_create_exact.
rewrite /LaplaceExtension.create /LaplaceExtension.check_parameters.
by have /Z.leb_le -> := dim1.
Qed.

Lemma laplace_create_det_witness :
  LaplaceExtension.create 1 [::] [::] [::] [::] = Err InvalidDimension
  /\ (exists2 m,
        LaplaceExtension.create 3 [:: [:: 3]; [:: 4; 5]]%Z [:: [:: 5]; [:: 6; 7]]%Z
          [:: 1; 0] [:: 0; 2] = Ok m
        & unimodular (Z.to_nat 3) m).
Proof.
have dim1 : (1 <= 1)%Z by lia.
have dim2 : (2 <= 3)%Z by lia.
have [H1 _] := laplace_create_det 1 [::] [::] [::] [::].
have [_ H2] := laplace_create_det 3 [:: [:: 3]; [:: 4; 5]]%Z [:: [:: 5]; [:: 6; 7]]%Z
                 [:: 1; 0] [:: 0; 2].
have ok : laplace_args_ok (Z.to_nat 3).-1 [:: [:: 3]; [:: 4; 5]]%Z
            [:: [:: 5]; [:: 6; 7]]%Z [:: 1; 0] [:: 0; 2].
  by vm_compute.
have fits : laplace_fits [:: [:: 3]; [:: 4; 5]]%Z [:: [:: 5]; [:: 6; 7]]%Z
              [:: 1; 0] [:: 0; 2] (NdArray 1 [:: [:: 1%Z]]) 0 (Z.to_nat 3).-1.
  by vm_compute.
have [E U] := H2 dim2 ok.
split; first exact (H1 dim1).
exists (laplace_exact [:: [:: 3]; [:: 4; 5]]%Z [:: [:: 5]; [:: 6; 7]]%Z
          [:: 1; 0] [:: 0; 2] (NdArray 1 [:: [:: 1%Z]]) 0 (Z.to_nat 3).-1).
  by rewrite E fits.
exact (U fits).
Defined.

(** X8: [LaplaceExtension.random] never fails on the sizes of its own
    draws: for [dim >= 2], when draw [i] of the rows and of the columns
    holds [i] int64 items and draw [i] of the insertion indices is in
    [[0, i]], the draws pass the count check, and [random] returns exactly
    when every new entry of the construction fits int64: it then returns the
    matrix of the exact construction, a [dim] x [dim] int64 array with
    determinant 1; when a new entry does not fit it raises
    [OverflowError]. *)
Theorem laplace_random_det (dim : Z) (rand_rows rand_cols : nat -> seq Z)
    (rand_rloc rand_cloc : nat -> nat) :
  let n := (Z.to_nat dim).-1 in
  let seed := NdArray 1 [:: [:: 1%Z]] in
  let rows := [seq rand_rows i | i <- iota 1 n] in
  let cols := [seq rand_cols i | i <- iota 1 n] in
  let rows_loc := [seq rand_rloc i | i <- iota 1 n] in
  let cols_loc := [seq rand_cloc i | i <- iota 1 n] in
  (2 <= dim)%Z ->
  (forall i, size (rand_rows i) = i /\ all in_int64 (rand_rows i)) ->
  (forall i, size (rand_cols i) = i /\ all in_int64 (rand_cols i)) ->
  (forall i, rand_rloc i <= i) -> (forall i, rand_cloc i <= i) ->
  [/\ LaplaceExtension.check_parameters dim rows cols rows_loc cols_loc
      = Ok (dim - 1)%Z,
      LaplaceExtension.random dim rand_rows rand_cols rand_rloc rand_cloc
      = (if laplace_fits rows cols rows_loc cols_loc seed 0 n
         then Ok (laplace_exact rows cols rows_loc cols_loc seed 0 n)
         else Err OverflowError)
    & laplace_fits rows cols rows_loc cols_loc seed 0 n ->
      unimodular (Z.to_nat dim) (laplace_exact rows cols rows_loc cols_loc seed 0 n)].
Proof.
move=> n seed rows cols rows_loc cols_loc dim2 rows_ok cols_ok rloc_ok cloc_ok.
have ok : laplace_args_ok n rows cols rows_loc cols_loc.
  rewrite /laplace_args_ok !size_map size_iota !eqxx /=.
  apply/allP => i; rewrite mem_iota add0n => /= lt_i.
  rewrite !(nth_map 0) ?size_iota // !nth_iota // !add1n.
  have [-> ->] := rows_ok i.+1; have [-> ->] := cols_ok i.+1.
  by rewrite !eqxx rloc_ok cloc_ok.
have [E U] := laplace_create_exact dim2 ok.
split=> //; first exact: laplace_check_ok.
by rewrite /LaplaceExtension.random subn1.
Qed.

Lemma laplace_random_det_witness :
  exists2 m,
    LaplaceExtension.random 3 (fun i => nseq i 2%Z) (fun i => nseq i 3%Z)
      (fun i => i) (fun _ => 0) = Ok m
    & unimodular (Z.to_nat 3) m.
Proof.
have dim2 : (2 <= 3)%Z by lia.
have draws (v : Z) (i : nat) :
    in_int64 v -> size (nseq i v) = i /\ all in_int64 (nseq i v).
  move=> v64; rewrite size_nseq; split; first by [].
  by apply/allP => x; rewrite mem_nseq => /andP [_ /eqP ->].
have two64 : in_int64 2 by vm_compute.
have three64 : in_int64 3 by vm_compute.
have [_ E U] :=
  @laplace_random_det 3 (fun i => nseq i 2%Z) (fun i => nseq i 3%Z)
    (fun i => i) (fun _ => 0) dim2 (fun i => draws 2%Z i two64)
    (fun i => draws 3%Z i three64) (fun i => leqnn i) (fun i => leq0n i).
have fits :
    laplace_fits [seq nseq i 2%Z | i <- iota 1 (Z.to_nat 3).-1]
      [seq nseq i 3%Z | i <- iota 1 (Z.to_nat 3).-1]
      [seq i | i <- iota 1 (Z.to_nat 3).-1]
      [seq 0 | i <- iota 1 (Z.to_nat 3).-1]
      (NdArray 1 [:: [:: 1%Z]]) 0 (Z.to_nat 3).-1.
  by vm_compute.
exists (laplace_exact [seq nseq i 2%Z | i <- iota 1 (Z.to_nat 3).-1]
          [seq nseq i 3%Z | i <- iota 1 (Z.to_nat 3).-1]
          [seq i | i <- iota 1 (Z.to_nat 3).-1]
          [seq 0 | i <- iota 1 (Z.to_nat 3).-1]
          (NdArray 1 [:: [:: 1%Z]]) 0 (Z.to_nat 3).-1).
  by rewrite E fits.
exact (U fits).
Defined.

(** ** What [LaplaceExtension.extend] accepts *)

Lemma asarray2_inv (a b : ndarray) : asarray2 a = Ok b -> b = a.
Proof. by rewrite /asarray2; case: ifP => // _ []. Qed.

Lemma asarray_reshape_inv (s : seq Z) (k w : nat) (a : ndarray) :
  (x <- asarray s ;; np_reshape x k w) = Ok a ->
  [/\ size s = k * w, nrows a = k & ncols a = w].
Proof.
rewrite /asarray; case: ifP => // _; rewrite bindE /np_reshape.
case: eqP => // sz [<-]; split=> //.
by rewrite /nrows /= size_reshape size_nseq.
Qed.

Lemma asarray_reshape1_inv (s : seq Z) (k : nat) (t : seq Z) :
  (x <- asarray s ;; np_reshape1 x k) = Ok t -> size s = k /\ t = s.
Proof.
rewrite /asarray; case: ifP => // _; rewrite bindE /np_reshape1.
by case: eqP => // sz [<-].
Qed.

Lemma c_3_inv (a b d x : ndarray) :
  c_ a [:: b; d] = Ok x ->
  [/\ nrows a = nrows b, nrows a = nrows d,
      ncols x = ncols a + ncols b + ncols d & nrows x = nrows a].
Proof.
rewrite /c_ /= /hstack2; case: eqP => //= ab.
rewrite {1}/nrows /= size_map size_zip -/(nrows a) -/(nrows b) -ab minnn.
case: eqP => // ad [<-]; split=> //.
by rewrite /nrows /= size_map size_zip size_map size_zip -!/(nrows _) -ab -ad !minnn.
Qed.

Lemma r_3_inv (a b d x : ndarray) :
  r_ a [:: b; d] = Ok x ->
  [/\ ncols a = ncols b, ncols a = ncols d,
      ncols x = ncols a & nrows x = nrows a + nrows b + nrows d].
Proof.
rewrite /r_ /= /vstack2; case: eqP => //= ab; case: eqP => // ad [<-]; split=> //.
by rewrite /nrows /= !size_cat.
Qed.

Ltac inv_bind x := let H := fresh in move=> H; case: (bind_ok H) => {H} x.

(** X9: [LaplaceExtension.extend] returns only for insertion indices
    inside the matrix ([row_loc] at most its number of rows, [col_loc] at
    most its number of columns) and for a [row] and a [col] of exactly as
    many items as the matrix has rows and columns; the array returned has one
    more row and one more column.  Every other call raises. *)
Theorem laplace_extend_accepts (matrix : ndarray) (row col : seq Z)
    (row_loc col_loc : nat) (m' : ndarray) :
  LaplaceExtension.extend matrix row col row_loc col_loc = Ok m' ->
  [/\ row_loc <= nrows matrix, col_loc <= ncols matrix,
      size row = nrows matrix, size col = ncols matrix
    & nrows m' = (nrows matrix).+1 /\ ncols m' = (ncols matrix).+1].
Proof.
rewrite /LaplaceExtension.extend.
inv_bind d1 => /asarray2_inv ->.
inv_bind d2 => /asarray2_inv ->.
inv_bind o1 => /asarray2_inv ->.
inv_bind o2 => /asarray2_inv ->.
inv_bind top => /asarray_reshape_inv [sz_top nr_top nc_top].
inv_bind bottom => /asarray_reshape1_inv [sz_bot _].
inv_bind lft => /asarray_reshape_inv [sz_left nr_left nc_left].
inv_bind rgt => /asarray_reshape_inv [sz_right nr_right nc_right].
inv_bind band1 => /c_3_inv [b1a _ nc_b1 nr_b1].
inv_bind band2 => /c_3_inv [_ _ nc_b2 nr_b2].
inv_bind band3 => /c_3_inv [_ _ _ nr_b3].
inv_bind cnd => /r_3_inv [e12 _ nc_cat nr_cat].
inv_bind cs => _.
rewrite /setitem; case: ifP => // /andP [lt_r lt_c]; case: ifP => // _ [<-].
set res := NdArray _ _.
have -> : nrows res = nrows cnd by rewrite /nrows /= size_set_nth; apply/maxn_idPr.
have -> : ncols res = ncols cnd by [].
rewrite nc_cat nr_cat {res}.
move: e12; rewrite nr_b1 nr_b2 nr_b3 nc_b1 nc_b2 nc_top nc_left nc_right {nc_b1 nc_b2}.
move: b1a sz_bot sz_top sz_left sz_right; rewrite nr_top nr_left.
rewrite /slice2 /slice /slice_len /nrows /= !size_map !size_drop ?drop0 ?size_take.
rewrite ?subn0 -/(nrows matrix).
move: (nrows matrix) (ncols matrix) (size row) (size col) => n nc sr sc.
rewrite !mul1n !muln1 !minnE.
by do 3![case: ltnP => ?]; rewrite -?plusE -?minusE => *; split; try split; ssr_lia.
Qed.

Lemma laplace_extend_accepts_witness :
  let m := NdArray 2 [:: [:: 1; 1]; [:: 1; 2]]%Z in
  let m' := NdArray 3 [:: [:: 1; 3; 1]; [:: 5; 17; 6]; [:: 1; 4; 2]]%Z in
  [/\ 1 <= nrows m, 1 <= ncols m,
      size [:: 3; 4]%Z = nrows m, size [:: 5; 6]%Z = ncols m
    & nrows m' = (nrows m).+1 /\ ncols m' = (ncols m).+1].
Proof.
move=> m m'.
have E : LaplaceExtension.extend m [:: 3; 4]%Z [:: 5; 6]%Z 1 1 = Ok m'.
  by vm_compute.
exact (laplace_extend_accepts E).
Defined.

(** ** The cofactor sum *)

(** X10: on a square array, for a cell [(r, c)] inside it,
    [LaplaceExtension.cofactors] returns the expansion of the determinant
    along column [c] without the term of row [r]: added to
    [cat[r][c] * cofactor(r, c)] it gives the determinant. *)
Theorem cofactors_expansion (cat : ndarray) (r c : nat) :
  wf_array cat -> square cat -> r < nrows cat -> c < ncols cat ->
  exists S C,
    [/\ LaplaceExtension.cofactors cat r c = Ok S,
        sympy_cofactor cat r c = Ok C
      & det cat = (S + item cat r c * C)%Z].
Proof.
move=> wfc sqc lt_r lt_c.
exists (cofactor_sum cat r c), (cofactor_rows (nrows cat) (rows cat) r c); split.
- exact: cofactors_ok.
- by rewrite /sympy_cofactor sqc lt_r lt_c.
rewrite /det /cofactor_sum; move/eqP: sqc lt_c => <-.
case: (nrows cat) lt_r => [|n] // lt_r lt_c.
rewrite (@det_rows_expand_col _ _ c) // !sumz_big.
rewrite (bigD1_seq r) ?iota_uniq ?mem_iota ?add0n //= -big_mkcond /=.
by rewrite !ZringE /item Z.add_comm.
Qed.

Lemma cofactors_expansion_witness :
  let cat := NdArray 2 [:: [:: 2; 1]; [:: 1; 1]]%Z in
  exists S C,
    [/\ LaplaceExtension.cofactors cat 0 0 = Ok S,
        sympy_cofactor cat 0 0 = Ok C
      & det cat = (S + item cat 0 0 * C)%Z].
Proof.
move=> cat.
exact (@cofactors_expansion cat 0 0 isT isT isT isT).
Defined.

(** * Further properties of the generator and of the wrapper *)

(** X12: [CatGenerator.split_sequence] raises the unknown-algorithm error
    for every name but 'block' and 'laplace'; for 'laplace' and [dim >= 2],
    and for 'block' and [dim >= 3], it gives back the four chunks of a packing
    whose chunks have the sizes the algorithm draws. *)
Theorem generator_split_sequence (A : Type) (dim : Z) (a b c d : seq A) :
  [/\ forall (name : string) (source : seq A),
        name <> "block"%string -> name <> "laplace"%string ->
        CatGenerator.split_sequence (PyInt dim) (PyStr name) source
        = Err (UnknownAlgorithm (PyStr name)),
      (2 <= dim)%Z ->
      Z.of_nat (size a) = ((dim - 1) * dim / 2)%Z ->
      Z.of_nat (size b) = ((dim - 1) * dim / 2)%Z ->
      Z.of_nat (size c) = (dim - 1)%Z ->
      Z.of_nat (size d) = (dim - 1)%Z ->
      CatGenerator.split_sequence (PyInt dim) (PyStr "laplace") (a ++ b ++ c ++ d)
      = Ok (a, b, c, d)
    & (3 <= dim)%Z ->
      Z.of_nat (size a) = BlockExtension.diag_size dim ->
      Z.of_nat (size b) = BlockExtension.off_diag_size dim ->
      Z.of_nat (size c) = BlockExtension.swap_size dim ->
      Z.of_nat (size d) = BlockExtension.swap_size dim ->
      CatGenerator.split_sequence (PyInt dim) (PyStr "block") (a ++ b ++ c ++ d)
      = Ok (a, b, c, d)].
Proof.
split=> [name source nb nl | dim2 sz_a sz_b sz_c sz_d | dim3 sz_a sz_b sz_c sz_d].
- by rewrite /CatGenerator.split_sequence expansion_dict_unknown.
- rewrite /CatGenerator.split_sequence /=.
  by rewrite laplace_split_sequence_roundtrip.
- rewrite /CatGenerator.split_sequence /=.
  by rewrite block_split_sequence_roundtrip.
Qed.

Lemma generator_split_sequence_witness :
  [/\ CatGenerator.split_sequence (PyInt 3) (PyStr "cat") [:: 1; 2; 3; 4; 5; 6]
      = Err (UnknownAlgorithm (PyStr "cat")),
      CatGenerator.split_sequence (PyInt 2) (PyStr "laplace")
        ([:: 1] ++ [:: 2] ++ [:: 3] ++ [:: 4])
      = Ok ([:: 1], [:: 2], [:: 3], [:: 4])
    & CatGenerator.split_sequence (PyInt 3) (PyStr "block")
        ([:: 1; 2] ++ [:: 3; 4] ++ [:: 5] ++ [:: 6])
      = Ok ([:: 1; 2], [:: 3; 4], [:: 5], [:: 6])].
Proof.
have dim2 : (2 <= 2)%Z by lia.
have dim3 : (3 <= 3)%Z by lia.
have [H1 _ _] := @generator_split_sequence nat 3 [::] [::] [::] [::].
have [_ H2 _] := @generator_split_sequence nat 2 [:: 1] [:: 2] [:: 3] [:: 4].
have [_ _ H3] := @generator_split_sequence nat 3 [:: 1; 2] [:: 3; 4] [:: 5] [:: 6].
split.
- by apply: H1.
- exact (H2 dim2 erefl erefl erefl erefl).
- exact (H3 dim3 erefl erefl erefl erefl).
Defined.

(** ** The dimension after [extend] *)

Lemma mapping_shape_error (self : CatMatrix.t) (data : seq Z) (size : Z) :
  ncols (CatMatrix._matrix self) != CatMatrix._dim self ->
  CatMap.mapping self data size = Err ShapeError.
Proof.
move=> ne; rewrite /CatMap.mapping /np_reshape_infer.
case: ifP => // _; rewrite /np_reshape; case: ifP => // _.
rewrite bindE /CatMap.matmul /nrows /= size_reshape size_nseq.
by rewrite (negbTE ne).
Qed.

(** On Python integers whose block fits int64 the rule gives the block it
    gives on int64 scalars. *)
Lemma diagonal_cat_matrix_int_eq (p q : Z) :
  in_int64 p -> in_int64 q -> in_int64 (p * q + 1) ->
  BlockExtension._diagonal_cat_matrix_int p q
  = Ok (BlockExtension._diagonal_cat_matrix p q).
Proof.
move=> p64 q64 pq64.
rewrite /BlockExtension._diagonal_cat_matrix_int /BlockExtension._diagonal_cat_matrix.
have zero : (mul64 p q =? 0)%Z = (p * q =? 0)%Z.
  case: (Z.eqb_spec (p * q) 0) => [E | ne]; first by rewrite /mul64 E.
  apply/Z.eqb_neq; rewrite /mul64 /wrap64.
  move: pq64 => /andP [/Z.leb_le lo /Z.leb_le hi].
  move: lo hi ne; rewrite /int64_min /int64_max; move: (p * q)%Z => a lo hi ne.
  by Z.div_mod_to_equations; lia.
rewrite zero; case: Z.eqb_spec => // _.
rewrite add64_mul64 wrap64_id // asarray2_ok //.
by rewrite /array_int64 /= pq64 p64 q64.
Qed.

Lemma block_extend_kind (matrix : ndarray) (p q : Z) (diag off_diag : seq Z)
    (swap_diag swap_off_diag : bool) :
  in_int64 p -> in_int64 q -> in_int64 (p * q + 1) ->
  BlockExtension.extend PyInts matrix (p :: q :: diag) off_diag
    swap_diag swap_off_diag
  = BlockExtension.extend Int64s matrix (p :: q :: diag) off_diag
      swap_diag swap_off_diag.
Proof.
move=> p64 q64 pq64; rewrite /BlockExtension.extend /getitem /= ?bindE.
by rewrite diagonal_cat_matrix_int_eq.
Qed.

(** X13: [CatMatrix.extend] stores the extended matrix and leaves [_dim]
    as it was.  After a block extension of an object whose matrix is
    unimodular of [n = _dim] rows, called with a list that starts with
    integers [p] and [q] such that [p], [q] and [p * q + 1] fit int64 and
    with [2 n] off-diagonal integers that fit int64, the object holds a
    unimodular matrix of [n + 2] rows, its dimension is still [n], and
    [mapping] raises the shape error on every input. *)
Theorem catmatrix_extend_keeps_dim (self : CatMatrix.t) (p q : Z)
    (diag off_diag : seq Z) (swap_diag swap_off_diag : bool) :
  let n := CatMatrix._dim self in
  unimodular n (CatMatrix._matrix self) -> 0 < n ->
  in_int64 p -> in_int64 q -> in_int64 (p * q + 1) ->
  size off_diag = 2 * n -> all in_int64 off_diag ->
  exists self',
    [/\ CatMatrix.extend self (PyStr "block")
          (CatGenerator.BlockExtend (p :: q :: diag) off_diag swap_diag swap_off_diag)
        = Ok self',
        unimodular (n + 2) (CatMatrix._matrix self'),
        CatMatrix._dim self' = n
      & forall data size, CatMap.mapping self' data size = Err ShapeError].
Proof.
move=> n uni n_gt0 p64 q64 pq64 sz_off off64.
have ok : block_ok p q by rewrite /block_ok pq64 orbT.
have [m' E uni'] :=
  block_extend_unimodular diag swap_diag swap_off_diag uni n_gt0 p64 q64 ok sz_off off64.
exists (CatMatrix.Make m' n); split=> //.
  by rewrite /CatMatrix.extend /CatGenerator.extend /= block_extend_kind // E.
move=> data size; apply: mapping_shape_error => /=.
case/and5P: uni' => _ _ /eqP -> _ _.
by rewrite -[X in _ != X]addn0 eqn_add2l.
Qed.

Lemma catmatrix_extend_keeps_dim_witness :
  let self := CatMatrix.Make (NdArray 2 [:: [:: 1; 1]; [:: 1; 2]]%Z) 2 in
  exists self',
    [/\ CatMatrix.extend self (PyStr "block")
          (CatGenerator.BlockExtend [:: 2; 3]%Z [:: 5; 6; 7; 8]%Z false false)
        = Ok self',
        unimodular (2 + 2) (CatMatrix._matrix self'),
        CatMatrix._dim self' = 2
      & forall data size, CatMap.mapping self' data size = Err ShapeError].
Proof.
move=> self.
have uni : unimodular 2 (CatMatrix._matrix self) by vm_compute.
have p64 : in_int64 2 by vm_compute.
have q64 : in_int64 3 by vm_compute.
have pq64 : in_int64 (2 * 3 + 1) by vm_compute.
have off64 : all in_int64 [:: 5; 6; 7; 8]%Z by vm_compute.
exact (@catmatrix_extend_keeps_dim self 2%Z 3%Z [::] [:: 5; 6; 7; 8]%Z false false
         uni isT p64 q64 pq64 erefl off64).
Defined.

(** * What [BlockExtension.extend] accepts *)

Lemma np_reshape_infer_shape (l : seq Z) (k : nat) :
  0 < k ->
  np_reshape_infer l k
  = if k %| size l then Ok (NdArray (size l %/ k) (reshape (nseq k (size l %/ k)) l))
    else Err ShapeError.
Proof.
move=> k_gt0; rewrite /np_reshape_infer eqn0Ngt k_gt0 /= /dvdn.
case: eqP => [mod0 | _] //=.
by rewrite /np_reshape mulnC divnK ?eqxx // /dvdn mod0.
Qed.

(** The shapes of the assembly of [extend]: [X] and [Y] are [cat1] and
    [cat2], [u] and [v] are [mat1] and [mat2]. *)
Lemma block_assemble_shape (X Y : ndarray) (u v : seq Z) (a b k : nat) :
  nrows X = a -> ncols X = a -> nrows Y = b -> ncols Y = b -> 0 < a -> 0 < b ->
  size u = k -> size v = k ->
  let r := (m1 <- np_reshape_infer u (nrows X) ;;
            top <- c_ X [:: m1] ;;
            m2 <- np_reshape_infer v (nrows Y) ;;
            bottom <- c_ m2 [:: Y] ;;
            r_ top [:: bottom]) in
  if [&& a %| k, b %| k & a + k %/ a == k %/ b + b]
  then exists2 m, r = Ok m & nrows m = a + b /\ ncols m = a + k %/ a
  else r = Err ShapeError.
Proof.
move=> nrX ncX nrY ncY a_gt0 b_gt0 sz_u sz_v /=.
rewrite nrX nrY !np_reshape_infer_shape // sz_u sz_v.
case: (a %| k) => //=; rewrite /c_ /= /hstack2.
set m1 := NdArray (k %/ a) _.
have nr1 : nrows m1 = a by rewrite /nrows /= size_reshape size_nseq.
rewrite nrX nr1 eqxx /=; case: (b %| k) => //=.
set m2 := NdArray (k %/ b) _.
have nr2 : nrows m2 = b by rewrite /nrows /= size_reshape size_nseq.
rewrite nr2 nrY eqxx /= /r_ /= /vstack2 /= ncX ncY; case: eqP => //= _.
eexists; first by [].
rewrite /nrows /= size_cat !size_map !size_zip !size_reshape !size_nseq.
by rewrite -!/(nrows _) nrX nrY !minnn.
Qed.

Lemma block_shape_arith (n k : nat) :
  0 < n ->
  [&& 2 %| k, n %| k & 2 + k %/ 2 == k %/ n + n]
  = (k == 2 * n) || ((n == 2) && ~~ odd k).
Proof.
move=> n_gt0; apply/and3P/orP => [[/dvdnP [a ka] /dvdnP [b kb] /eqP] | ].
  rewrite {1}ka mulnK // {1}kb mulnK // => E.
  case: (n =P 2) => [_ | ne2]; first by right; rewrite /= ka oddM andbF.
  left; apply/eqP; rewrite ka mulnC; congr (2 * _).
  move: ka; rewrite kb => ab; move/eqP: ne2 => ne2.
  apply/eqP; move: ab E ne2 n_gt0; rewrite -!plusE -!multE => ab E /eqP ne2 /ltP n_gt0.
  by apply/eqP; nia.
case=> [/eqP -> | /andP [/eqP -> ev]].
  by rewrite dvdn_mulr // dvdn_mull // mulKn // mulnK // addnC.
by rewrite dvdn2 ev addnC.
Qed.

Lemma diagonal_cat_matrix_int_fits (p q : Z) :
  if block_fits p q
  then exists2 D, BlockExtension._diagonal_cat_matrix_int p q = Ok D
                & nrows D = 2 /\ ncols D = 2
  else BlockExtension._diagonal_cat_matrix_int p q = Err OverflowError.
Proof.
rewrite /block_fits /BlockExtension._diagonal_cat_matrix_int.
case: Z.eqb_spec => [_ | _] /=; first by eexists.
rewrite /asarray2 /array_int64 /= !andbT -andbA.
by case: [&& _, _ & _] => //=; eexists.
Qed.

(** X14: [BlockExtension.extend] called with lists of Python integers, on
    a square int64 matrix of [n >= 1] rows and off-diagonal integers that fit
    int64.  A [diag] of fewer than two items raises [IndexError].  For
    [diag = [p, q, ...]], when [p * q] is not 0 and [p * q + 1], [p] or [q]
    does not fit int64 the call raises [OverflowError]; otherwise it returns
    exactly when [off_diag] holds [2 n] items or, for [n = 2], any even
    number of them, the array returned having [n + 2] rows and
    [2 + len(off_diag) / 2] columns (it is square only for [2 n] items), and
    every other length raises the shape error. *)
Theorem block_extend_accepts (matrix : ndarray) (n : nat) (diag off_diag : seq Z)
    (swap_diag swap_off_diag : bool) :
  let k := size off_diag in
  let r := BlockExtension.extend PyInts matrix diag off_diag swap_diag swap_off_diag in
  (size diag < 2 -> r = Err IndexError)
  /\ (forall p q rest, diag = p :: q :: rest ->
      nrows matrix = n -> ncols matrix = n -> 0 < n -> array_int64 matrix ->
      all in_int64 off_diag ->
      if block_fits p q then
        if (k == 2 * n) || ((n == 2) && ~~ odd k)
        then exists2 m, r = Ok m & nrows m = n + 2 /\ ncols m = 2 + k %/ 2
        else r = Err ShapeError
      else r = Err OverflowError).
Proof.
move=> k r; rewrite {}/r; split.
  by rewrite /BlockExtension.extend; case: diag => [|p [|q diag]].
move=> p q rest -> nrM ncM n_gt0 M64 off64.
rewrite /BlockExtension.extend /getitem /= ?bindE.
have := diagonal_cat_matrix_int_fits p q.
case: ifP => [_ [D -> [nrD ncD]] | _ ->] //.
rewrite ?bindE asarray2_ok // ?bindE asarray_ok // ?bindE /BlockExtension.zeros_like.
have sz_z : size (nseq (size off_diag) 0%Z) = k by rewrite size_nseq.
rewrite -(block_shape_arith k n_gt0).
have condC : [&& n %| k, 2 %| k & n + k %/ n == k %/ 2 + 2]
             = [&& 2 %| k, n %| k & 2 + k %/ 2 == k %/ n + n].
  by rewrite andbCA eq_sym [n + _]addnC [_ + 2]addnC.
have swapped u v : size u = k -> size v = k ->
    if [&& 2 %| k, n %| k & 2 + k %/ 2 == k %/ n + n]
    then exists2 m,
           (m1 <- np_reshape_infer u (nrows matrix) ;;
            top <- c_ matrix [:: m1] ;;
            m2 <- np_reshape_infer v (nrows D) ;;
            bottom <- c_ m2 [:: D] ;;
            r_ top [:: bottom]) = Ok m
           & nrows m = n + 2 /\ ncols m = 2 + k %/ 2
    else (m1 <- np_reshape_infer u (nrows matrix) ;;
          top <- c_ matrix [:: m1] ;;
          m2 <- np_reshape_infer v (nrows D) ;;
          bottom <- c_ m2 [:: D] ;;
          r_ top [:: bottom]) = Err ShapeError.
  move=> sz_u sz_v.
  have := block_assemble_shape nrM ncM nrD ncD n_gt0 isT sz_u sz_v.
  rewrite /= condC; case: ifP => [/and3P [_ _ /eqP E] | _] //.
  by case=> m Em [nr nc]; exists m => //; split=> //; rewrite nc E addnC.
have direct u v : size u = k -> size v = k ->
    if [&& 2 %| k, n %| k & 2 + k %/ 2 == k %/ n + n]
    then exists2 m,
           (m1 <- np_reshape_infer u (nrows D) ;;
            top <- c_ D [:: m1] ;;
            m2 <- np_reshape_infer v (nrows matrix) ;;
            bottom <- c_ m2 [:: matrix] ;;
            r_ top [:: bottom]) = Ok m
           & nrows m = n + 2 /\ ncols m = 2 + k %/ 2
    else (m1 <- np_reshape_infer u (nrows D) ;;
          top <- c_ D [:: m1] ;;
          m2 <- np_reshape_infer v (nrows matrix) ;;
          bottom <- c_ m2 [:: matrix] ;;
          r_ top [:: bottom]) = Err ShapeError.
  move=> sz_u sz_v.
  have := block_assemble_shape nrD ncD nrM ncM isT n_gt0 sz_u sz_v.
  rewrite /=; case: ifP => // _.
  by case=> m Em [nr nc]; exists m => //; split=> //; rewrite nr addnC.
by case: swap_diag; case: swap_off_diag => /=; [apply: swapped | apply: swapped
                                             | apply: direct | apply: direct].
Qed.

Lemma block_extend_accepts_witness :
  let m := NdArray 2 [:: [:: 1; 1]; [:: 1; 2]]%Z in
  [/\ BlockExtension.extend PyInts m [:: 7]%Z [:: 5; 7]%Z false false
      = Err IndexError,
      exists2 m',
        BlockExtension.extend PyInts m [:: 1; 1]%Z [:: 5; 7]%Z false false = Ok m'
        & nrows m' = 2 + 2 /\ ncols m' = 2 + 2 %/ 2
    & BlockExtension.extend PyInts m [:: 2 ^ 32; 2 ^ 31]%Z [:: 5; 6; 7; 8]%Z
        false false = Err OverflowError].
Proof.
move=> m.
have [H1 _] := @block_extend_accepts m 2 [:: 7]%Z [:: 5; 7]%Z false false.
have [_ H2] := @block_extend_accepts m 2 [:: 1; 1]%Z [:: 5; 7]%Z false false.
have [_ H3] :=
  @block_extend_accepts m 2 [:: 2 ^ 32; 2 ^ 31]%Z [:: 5; 6; 7; 8]%Z false false.
split.
- exact (H1 isT).
- exact (H2 1%Z 1%Z [::] erefl erefl erefl isT isT isT).
- exact (H3 (2 ^ 32)%Z (2 ^ 31)%Z [::] erefl erefl erefl isT isT isT).
Defined.
